(** * go-log-middleware: structured access/call logging for HTTP services

    A shallow embedding of package [logging] (logger.go, log_middleware.go,
    user_correlation_id.go) together with the parts of the Go standard
    library and of logrus the package calls, followed by the properties
    of the event builders, the redaction policies and the middleware.

    Conventions of the embedding:
    - a Go [string] is a Rocq [string], one [ascii] per byte;
    - a Go [int] is a [Z] (no arithmetic is done on status codes);
    - a Go [map[string]T] is a [gmap string T]; the order in which
      [range] visits a map is not fixed by the language, it is supplied
      by a [MapRange] oracle and the results are shown not to depend on it;
    - [error] and pointer values that may be [nil] are [option]s;
    - logging is a writer effect: a function that logs returns the list
      of events it handed to the logger. *)

From Stdlib Require Import ZArith NArith String Ascii List DecimalString Lia.
From stdpp Require Import gmap strings list sorting.

Local Open Scope string_scope.
Local Open Scope list_scope.

(** ** Bytes and strings *)

Module GoStrings.

(** [lo <= c && c <= hi] on bytes. *)
Definition between (lo hi c : ascii) : bool :=
  (N_of_ascii lo <=? N_of_ascii c)%N && (N_of_ascii c <=? N_of_ascii hi)%N.

Definition is_lower (c : ascii) : bool := between "a" "z" c.
Definition is_upper (c : ascii) : bool := between "A" "Z" c.
Definition is_digit (c : ascii) : bool := between "0" "9" c.

(** ['a' - 'A'], the distance between the two ASCII cases. *)
Definition toLower : N := 32.

Definition lower_byte (c : ascii) : ascii :=
  if is_upper c then ascii_of_N (N_of_ascii c + toLower) else c.
Definition upper_byte (c : ascii) : ascii :=
  if is_lower c then ascii_of_N (N_of_ascii c - toLower) else c.

(** [strings.ToLower], on ASCII letters. *)
Fixpoint ToLower (s : string) : string :=
  match s with
  | EmptyString => EmptyString
  | String c rest => String (lower_byte c) (ToLower rest)
  end.

(** [strings.HasPrefix(s, prefix)]. *)
Definition HasPrefix (s prefix : string) : bool := String.prefix prefix s.

(** [strings.Cut(s, sep)] for a one-byte separator: the text before the
    first [sep], the text after it, and whether [sep] was found. *)
Fixpoint Cut (s : string) (sep : ascii) : string * string * bool :=
  match s with
  | EmptyString => (EmptyString, EmptyString, false)
  | String c rest =>
      if Ascii.eqb c sep then (EmptyString, rest, true)
      else let '(before, after, found) := Cut rest sep in
           (String c before, after, found)
  end.

(** [strings.Contains(s, sep)] for a one-byte [sep]. *)
Fixpoint ContainsByte (s : string) (sep : ascii) : bool :=
  match s with
  | EmptyString => false
  | String c rest => Ascii.eqb c sep || ContainsByte rest sep
  end.

(** [strings.Split(s, sep)[0]] for a one-byte separator. *)
Definition SplitFirst (s : string) (sep : ascii) : string :=
  fst (fst (Cut s sep)).

(** [strings.Join(l, sep)]. *)
Fixpoint Join (l : list string) (sep : string) : string :=
  match l with
  | [] => EmptyString
  | [x] => x
  | x :: rest => x +:+ sep +:+ Join rest sep
  end.

(** [sort.Strings]: ascending in the bytewise lexicographic order,
    which is stdpp's [String.le]. *)
Definition SortStrings (l : list string) : list string :=
  merge_sort String.le l.

(** [fmt.Sprintf("%v", n)] for an [int]. *)
Definition fmt_int (n : Z) : string := NilZero.string_of_int (Z.to_int n).

(** [fmt.Sprintf("%x", n)] for an unsigned integer. *)
Definition hex_digit (d : N) : ascii :=
  match String.get (N.to_nat d) "0123456789abcdef" with
  | Some c => c
  | None => "0"%char
  end.

Fixpoint fmt_hex_pos (fuel : nat) (n : N) (acc : string) : string :=
  match fuel with
  | O => acc
  | S fuel' =>
      let acc' := String (hex_digit (N.land n 15)) acc in
      if (N.shiftr n 4 =? 0)%N then acc' else fmt_hex_pos fuel' (N.shiftr n 4) acc'
  end.

Definition fmt_hex (n : N) : string := fmt_hex_pos (S (N.to_nat (N.log2 n))) n EmptyString.

End GoStrings.
Export GoStrings.

(** ** The order of [range] over a map

    Go leaves the order in which [range] visits the entries of a map
    unspecified; every visit sees each entry once. *)

Record MapRange := {
  range : forall {V : Type}, gmap string V -> list (string * V);
  range_perm : forall (V : Type) (m : gmap string V), range m ≡ₚ map_to_list m
}.

(** The order of stdpp's [map_to_list], one admissible order. *)
Definition range_canonical : MapRange :=
  {| range := fun V (m : gmap string V) => map_to_list m;
     range_perm := fun V m => reflexivity (map_to_list m) |}.

(** The reverse of it, another one. *)
Definition range_reversed : MapRange :=
  {| range := fun V (m : gmap string V) => reverse (map_to_list m);
     range_perm := fun V m => reverse_Permutation (map_to_list m) |}.

(** ** net/url: query strings *)

Module NetURL.

(** [url.Values], the type of parsed query parameters. *)
Abbreviation Values := (gmap string (list string)).

Definition ishex (c : ascii) : bool :=
  is_digit c || between "a" "f" c || between "A" "F" c.

Definition unhex (c : ascii) : N :=
  if is_digit c then N_of_ascii c - N_of_ascii "0"
  else if between "a" "f" c then N_of_ascii c - N_of_ascii "a" + 10
  else if between "A" "F" c then N_of_ascii c - N_of_ascii "A" + 10
  else 0.

Definition upperhex : string := "0123456789ABCDEF".

Definition upperhex_at (d : N) : ascii :=
  match String.get (N.to_nat d) upperhex with
  | Some c => c
  | None => "0"%char
  end.

(** [shouldEscape(c, encodeQueryComponent)]: everything but the
    unreserved characters of RFC 3986 is escaped in a query component. *)
Definition shouldEscape (c : ascii) : bool :=
  if is_lower c || is_upper c || is_digit c then false
  else if Ascii.eqb c "-" || Ascii.eqb c "_" || Ascii.eqb c "." || Ascii.eqb c "~"
  then false
  else true.

(** [url.QueryEscape]: a space becomes [+], any other byte that
    [shouldEscape] becomes [%XX] in upper-case hexadecimal. *)
Definition escape_byte (c : ascii) : string :=
  if Ascii.eqb c " " then "+"
  else if shouldEscape c
  then String "%" (String (upperhex_at (N.shiftr (N_of_ascii c) 4))
                     (String (upperhex_at (N.land (N_of_ascii c) 15)) EmptyString))
  else String c EmptyString.

Fixpoint QueryEscape (s : string) : string :=
  match s with
  | EmptyString => EmptyString
  | String c rest => escape_byte c +:+ QueryEscape rest
  end.

(** First pass of [unescape(s, encodeQueryComponent)]: count the [%]
    and check that two hexadecimal digits follow each; [None] is the
    [EscapeError]. The accumulators are the loop's [n] and [hasPlus]. *)
Fixpoint unescape_scan (s : string) (n : nat) (hasPlus : bool) : option (nat * bool) :=
  match s with
  | EmptyString => Some (n, hasPlus)
  | String c rest =>
      if Ascii.eqb c "%" then
        match rest with
        | String h1 (String h2 rest') =>
            if ishex h1 && ishex h2 then unescape_scan rest' (S n) hasPlus else None
        | _ => None
        end
      else if Ascii.eqb c "+" then unescape_scan rest n true
      else unescape_scan rest n hasPlus
  end.

(** Second pass: decode. It runs on validated input only; the branch
    for a truncated escape is unreachable after [unescape_scan]. *)
Fixpoint unescape_build (s : string) : string :=
  match s with
  | EmptyString => EmptyString
  | String c rest =>
      if Ascii.eqb c "%" then
        match rest with
        | String h1 (String h2 rest') =>
            String (ascii_of_N (N.lor (N.shiftl (unhex h1) 4) (unhex h2)))
                   (unescape_build rest')
        | _ => EmptyString
        end
      else if Ascii.eqb c "+" then String " " (unescape_build rest)
      else String c (unescape_build rest)
  end.

(** [url.QueryUnescape]; [None] stands for a non-nil error, with which
    Go returns the empty string. *)
Definition QueryUnescape (s : string) : option string :=
  match unescape_scan s 0 false with
  | None => None
  | Some (n, hasPlus) =>
      if (n =? 0)%nat && negb hasPlus then Some s else Some (unescape_build s)
  end.

(** One turn of the loop of [parseQuery], as of Go 1.17: [key] is the
    text up to the next [&]. Pairs that hold a semicolon or a malformed
    escape are skipped (the error they raise is dropped by [URL.Query]). *)
Definition parseQuery_pair (m : Values) (key : string) : Values :=
  if ContainsByte key ";" then m
  else if String.eqb key "" then m
  else
    let '(key, value, _) := Cut key "=" in
    match QueryUnescape key with
    | None => m
    | Some key1 =>
        match QueryUnescape value with
        | None => m
        | Some value1 => <[key1 := (m !!! key1) ++ [value1]]> m
        end
    end.

(** [for query != "" { key, query, _ = strings.Cut(query, "&"); ... }].
    Every turn consumes at least one byte of [query]; [fuel] bounds the
    number of turns. *)
Fixpoint parseQuery_loop (fuel : nat) (m : Values) (query : string) : Values :=
  match fuel with
  | O => m
  | S fuel' =>
      if String.eqb query "" then m
      else
        let '(key, query', _) := Cut query "&" in
        parseQuery_loop fuel' (parseQuery_pair m key) query'
  end.

(** [url.ParseQuery], its error dropped. *)
Definition ParseQuery (query : string) : Values :=
  parseQuery_loop (String.length query) ∅ query.

Section Encode.
Variable rg : MapRange.

(** The keys of a map, collected by [for k := range v]. *)
Definition map_keys {V : Type} (v : gmap string V) : list string :=
  (range rg v).*1.

(** Inner loop of [Values.Encode]: one [key=value] pair, preceded by
    [&] unless the buffer is empty. *)
Definition Encode_value (keyEscaped : string) (buf : string) (v : string) : string :=
  let buf := if (0 <? String.length buf)%nat then buf +:+ "&" else buf in
  buf +:+ keyEscaped +:+ "=" +:+ QueryEscape v.

Definition Encode_key (v : Values) (buf : string) (k : string) : string :=
  let vs := v !!! k in
  let keyEscaped := QueryEscape k in
  foldl (Encode_value keyEscaped) buf vs.

(** [Values.Encode]: the pairs in the order of the sorted keys. *)
Definition Encode (v : Values) : string :=
  if (size v =? 0)%nat then ""
  else foldl (Encode_key v) "" (SortStrings (map_keys v)).
End Encode.

End NetURL.
Export NetURL.

(** ** net/http: headers, requests, responses *)

Module NetHTTP.

(** [http.Header]. *)
Abbreviation HeaderT := (gmap string (list string)).

(** The bytes allowed in a header field name (the [token] of RFC 7230). *)
Definition validHeaderFieldByte (c : ascii) : bool :=
  is_lower c || is_upper c || is_digit c || ContainsByte "!#$%&'*+-.^_`|~" c.

Fixpoint validHeaderField (s : string) : bool :=
  match s with
  | EmptyString => true
  | String c rest => validHeaderFieldByte c && validHeaderField rest
  end.

(** Upper case for the first letter and for a letter after a dash,
    lower case for the others. *)
Fixpoint canonical_case (upper : bool) (s : string) : string :=
  match s with
  | EmptyString => EmptyString
  | String c rest =>
      let c' := if upper then upper_byte c else lower_byte c in
      String c' (canonical_case (Ascii.eqb c' "-") rest)
  end.

(** [textproto.CanonicalMIMEHeaderKey]: a key that holds a byte that is
    not allowed in a field name is returned unchanged. *)
Definition CanonicalMIMEHeaderKey (s : string) : string :=
  if validHeaderField s then canonical_case true s else s.

(** [Header.Get]: the first value stored under the canonical form of
    [key], or the empty string. *)
Definition Header_Get (h : HeaderT) (key : string) : string :=
  match h !! CanonicalMIMEHeaderKey key with
  | Some (v :: _) => v
  | _ => ""
  end.

(** [http.Cookie], the two fields the package reads. *)
Record Cookie := { Name : string; Value : string }.

(** [url.URL]. [Hostname] and [Port] hold what the accessors
    [u.Hostname()] and [u.Port()] return for the URL's host. *)
Record URLT := {
  Scheme : string;
  Hostname : string;
  Port : string;
  Path : string;
  RawQuery : string
}.

(** [URL.Query]. *)
Definition Query (u : URLT) : Values := ParseQuery (RawQuery u).

(** [http.Request]. [Cookies] holds what [r.Cookies()] returns: the
    cookies of the request's Cookie headers, in their order. *)
Record Request := {
  Method : string;
  URL : URLT;
  Proto : string;
  Header : HeaderT;
  Host : string;
  RemoteAddr : string;
  Cookies : list Cookie
}.

(** [http.Response], the two fields the package reads. *)
Record Response := { StatusCode : Z; resp_Header : HeaderT }.

(** What a handler does with the [http.ResponseWriter] it is given. *)
Inductive WriterCall :=
| CallWriteHeader (statusCode : Z)
| CallWrite (b : string).

(** An [http.ResponseWriter], as the calls it has received so far. *)
Abbreviation ResponseWriterT := (list WriterCall).

End NetHTTP.
Export NetHTTP.

(** ** logrus: levels, fields, entries *)

Module Logrus.

Inductive Level :=
| PanicLevel | FatalLevel | ErrorLevel | WarnLevel | InfoLevel | DebugLevel | TraceLevel.

Inductive FormatterT := TextFormatter | LogstashFormatter.

(** [logrus.Logger], the two fields [Set] assigns. *)
Record LoggerT := { Formatter : FormatterT; Level_ : Level }.

(** The values the package stores in [logrus.Fields]. *)
Inductive FieldValue :=
| FStr (s : string)
| FInt (n : Z)
| FTime (t : Z)
| FBool (b : bool)
| FCookies (m : gmap string string).

Abbreviation Fields := (gmap string FieldValue).

(** [logrus.ErrorKey]. *)
Definition ErrorKey : string := "error".

(** What an entry hands to the logger when it logs. *)
Record Event := { ev_fields : Fields; ev_level : Level; ev_message : string }.

(** [Logger.WithFields(fields)]: an entry that carries [fields]. *)
Abbreviation Entry := Fields.
Definition WithFields (fields : Fields) : Entry := fields.

Definition Entry_Log (level : Level) (e : Entry) (msg : string) : list Event :=
  [ {| ev_fields := e; ev_level := level; ev_message := msg |} ].

Definition Entry_Info := Entry_Log InfoLevel.
Definition Entry_Warn := Entry_Log WarnLevel.
Definition Entry_Error := Entry_Log ErrorLevel.
Definition Entry_Debug := Entry_Log DebugLevel.

(** The double quote, which [%q] puts around its argument. *)
Definition dquote : string := String (ascii_of_nat 34) EmptyString.

(** [logrus.ParseLevel] as logrus 1.x has it, on ASCII input; its
    error is the message text. *)
Definition ParseLevel (lvl : string) : Level + string :=
  let l := ToLower lvl in
  if String.eqb l "panic" then inl PanicLevel
  else if String.eqb l "fatal" then inl FatalLevel
  else if String.eqb l "error" then inl ErrorLevel
  else if String.eqb l "warn" || String.eqb l "warning" then inl WarnLevel
  else if String.eqb l "info" then inl InfoLevel
  else if String.eqb l "debug" then inl DebugLevel
  else if String.eqb l "trace" then inl TraceLevel
  else inr ("not a valid logrus Level: " +:+ dquote +:+ lvl +:+ dquote).

End Logrus.
Export Logrus.

(** ** Package logging *)

Module Logging.

(** The package-level variables. [Logger] is never nil: [init] calls
    [Set("info", false)]. *)
Record Globals := {
  Logger : LoggerT;
  AccessLogCookiesBlacklist : list string;
  AnonymizedQueryParams : list string;
  CorrelationIdHeader : string;
  UserCorrelationIdHeader : string
}.

Definition with_Logger (logger : LoggerT) (g : Globals) : Globals :=
  {| Logger := logger;
     AccessLogCookiesBlacklist := AccessLogCookiesBlacklist g;
     AnonymizedQueryParams := AnonymizedQueryParams g;
     CorrelationIdHeader := CorrelationIdHeader g;
     UserCorrelationIdHeader := UserCorrelationIdHeader g |}.

(** [Set(level, textLogging)]: the new globals and the returned error. *)
Definition Set_ (level : string) (textLogging : bool) (g : Globals)
  : Globals * option string :=
  match ParseLevel level with
  | inr err => (g, Some err)
  | inl l =>
      let logger :=
        {| Formatter := if textLogging then TextFormatter else LogstashFormatter;
           Level_ := l |} in
      (with_Logger logger g, None)
  end.

Fixpoint contains (s : list string) (e : string) : bool :=
  match s with
  | [] => false
  | a :: rest => if String.eqb a e then true else contains rest e
  end.

(** Modelled from the spec: [GetCorrelationId] and the variable
    [CorrelationIdHeader] (file correlation_id.go), which the spec
    describes as reading one fixed, overridable header name, the
    counterpart of [GetUserCorrelationId]. *)
Definition GetCorrelationId (g : Globals) (h : HeaderT) : string :=
  Header_Get h (CorrelationIdHeader g).

Definition GetUserCorrelationId (g : Globals) (h : HeaderT) : string :=
  Header_Get h (UserCorrelationIdHeader g).

Definition setCorrelationIds (g : Globals) (fields : Fields) (h : HeaderT) : Fields :=
  let correlationId := GetCorrelationId g h in
  let fields :=
    if negb (String.eqb correlationId "")
    then <["correlation_id" := FStr correlationId]> fields else fields in
  let userCorrelationId := GetUserCorrelationId g h in
  if negb (String.eqb userCorrelationId "")
  then <["user_correlation_id" := FStr userCorrelationId]> fields else fields.

Definition getRemoteIp (r : Request) : string :=
  if negb (String.eqb (Header_Get (Header r) "X-Cluster-Client-Ip") "")
  then Header_Get (Header r) "X-Cluster-Client-Ip"
  else if negb (String.eqb (Header_Get (Header r) "X-Real-Ip") "")
  then Header_Get (Header r) "X-Real-Ip"
  else SplitFirst (RemoteAddr r) ":".

(** [time.Since(start).Nanoseconds() / 1000000]; times are in
    nanoseconds and Go's division truncates. *)
Definition duration_ms (start now : Z) : Z := Z.quot (now - start) 1000000.

Section Builders.
Variable rg : MapRange.
Variable g : Globals.

(** The body of the loop of [buildFullPath]. *)
Definition redact_param (queryParams : Values) (kv : string * list string) : Values :=
  let '(key, value) := kv in
  if contains (AnonymizedQueryParams g) key
  then <[key := ["*****"]]> queryParams
  else <[key := value]> queryParams.

Definition buildFullPath (r : Request) : string :=
  let queryParams := foldl redact_param ∅ (range rg (Query (URL r))) in
  let queryString :=
    match QueryUnescape (Encode rg queryParams) with
    | Some s => s
    | None => ""
    end in
  if negb (String.eqb queryString "")
  then Path (URL r) +:+ "?" +:+ queryString
  else Path (URL r).

Definition buildFullUrl (r : Request) : string :=
  let buffer := Scheme (URL r) +:+ "://" in
  let buffer := buffer +:+ Hostname (URL r) in
  let buffer :=
    if negb (String.eqb (Port (URL r)) "")
    then buffer +:+ (":" +:+ Port (URL r)) else buffer in
  buffer +:+ buildFullPath r.

(** The loop of [access] over [r.Cookies()]. *)
Definition keep_cookie (cookies : gmap string string) (c : Cookie) : gmap string string :=
  if negb (contains (AccessLogCookiesBlacklist g) (Name c))
  then <[Name c := Value c]> cookies
  else cookies.

Definition access (r : Request) (start now : Z) (statusCode : Z) (err : option string)
  : Entry :=
  let fields : Fields :=
    <["type" := FStr "access"]>
    (<["@timestamp" := FTime start]>
    (<["remote_ip" := FStr (getRemoteIp r)]>
    (<["host" := FStr (Host r)]>
    (<["url" := FStr (buildFullPath r)]>
    (<["method" := FStr (Method r)]>
    (<["proto" := FStr (Proto r)]>
    (<["duration" := FInt (duration_ms start now)]>
    (<["User_Agent" := FStr (Header_Get (Header r) "User-Agent")]> ∅)))))))) in
  let fields :=
    if negb (statusCode =? 0)%Z
    then <["response_status" := FInt statusCode]> fields else fields in
  let fields :=
    match err with
    | Some e => <[ErrorKey := FStr e]> fields
    | None => fields
    end in
  let fields := setCorrelationIds g fields (Header r) in
  let cookies := foldl keep_cookie ∅ (Cookies r) in
  let fields :=
    if (0 <? size cookies)%nat
    then <["cookies" := FCookies cookies]> fields else fields in
  WithFields fields.

(** [Access]: logs an access entry with call duration and status code. *)
Definition Access (r : Request) (start now : Z) (statusCode : Z) : list Event :=
  let e := access r start now statusCode None in
  let msg :=
    if (String.length (RawQuery (URL r)) =? 0)%nat
    then fmt_int statusCode +:+ " ->" +:+ Method r +:+ " " +:+ Path (URL r)
    else fmt_int statusCode +:+ " ->" +:+ Method r +:+ " " +:+ Path (URL r) +:+ "?..." in
  if (200 <=? statusCode)%Z && (statusCode <=? 399)%Z then Entry_Info e msg
  else if (400 <=? statusCode)%Z && (statusCode <=? 499)%Z then Entry_Warn e msg
  else Entry_Error e msg.

(** [AccessError]: logs an error while accessing. *)
Definition AccessError (r : Request) (start now : Z) (err : string) : list Event :=
  let e := access r start now 0 (Some err) in
  Entry_Error e ("ERROR ->" +:+ Method r +:+ " " +:+ Path (URL r)).

(** [Call]: logs the result of an outgoing call. *)
Definition Call (r : Request) (resp : option Response) (start now : Z)
  (err : option string) : list Event :=
  let fields : Fields :=
    <["type" := FStr "call"]>
    (<["@timestamp" := FTime start]>
    (<["host" := FStr (Host r)]>
    (<["url" := FStr (buildFullPath r)]>
    (<["full_url" := FStr (buildFullUrl r)]>
    (<["method" := FStr (Method r)]>
    (<["duration" := FInt (duration_ms start now)]> ∅)))))) in
  let fields := setCorrelationIds g fields (Header r) in
  match err with
  | Some e =>
      let fields := <[ErrorKey := FStr e]> fields in
      Entry_Error (WithFields fields) e
  | None =>
      match resp with
      | Some resp =>
          let fields := <["response_status" := FInt (StatusCode resp)]> fields in
          let fields :=
            <["content_type" := FStr (Header_Get (resp_Header resp) "Content-Type")]>
              fields in
          let e := WithFields fields in
          let msg :=
            fmt_int (StatusCode resp) +:+ " " +:+ Method r +:+ "-> " +:+ buildFullUrl r in
          if (200 <=? StatusCode resp)%Z && (StatusCode resp <=? 399)%Z
          then Entry_Info e msg
          else if (400 <=? StatusCode resp)%Z && (StatusCode resp <=? 499)%Z
          then Entry_Warn e msg
          else Entry_Error e msg
      | None => Entry_Warn (WithFields fields) "call, but no response given"
      end
  end.

(** [Cacheinfo]: logs the hit information of accessing a resource. *)
Definition Cacheinfo (url : string) (hit : bool) : list Event :=
  let msg := if hit then "cache hit: " +:+ url else "cache miss: " +:+ url in
  Entry_Debug
    (WithFields (<["type" := FStr "cacheinfo"]>
                (<["url" := FStr url]>
                (<["hit" := FBool hit]> ∅))))
    msg.

(** [Application]: an entry pre-filled with the correlation ids. *)
Definition Application (h : HeaderT) : Entry :=
  let fields : Fields := <["type" := FStr "application"]> ∅ in
  let fields := setCorrelationIds g fields h in
  WithFields fields.
End Builders.

End Logging.
Export Logging.

(** ** The logging middleware (log_middleware.go) *)

Module Middleware.

(** A value a handler can [panic] with, and how [%v] prints it. A
    recovered panic value is never nil: [recover] returns nil exactly
    when the goroutine is not panicking. *)
Inductive PanicValue :=
| PanicString (s : string)
| PanicError (msg : string)
| PanicInt (n : Z).

Definition fmt_v (v : PanicValue) : string :=
  match v with
  | PanicString s => s
  | PanicError msg => msg
  | PanicInt n => fmt_int n
  end.

(** [runtime.Func], as read through [Name] and [FileLine]. *)
Record FuncT := { fn_Name : string; fn_File : string; fn_Line : Z }.

(** A frame of the call stack: its program counter and what
    [runtime.FuncForPC] returns for it ([None] is nil). *)
Record Frame := { frame_pc : N; frame_fn : option FuncT }.

(** How one call of a handler went: the calls it made on its response
    writer, then a normal return or a panic, the latter with the stack
    [runtime.Callers(3, ...)] sees from the deferred function. *)
Inductive Completion :=
| Returned
| Panicked (rec : PanicValue) (stack : list Frame).

Record HandlerRun := { calls : list WriterCall; completion : Completion }.

(** [http.Handler]. *)
Definition Handler := Request -> HandlerRun.

Record LogMiddleware := { Next : Handler; panicCode : Z }.

Definition LogOption := LogMiddleware -> LogMiddleware.

Definition NewLogMiddleware (next : Handler) (options : list LogOption) : LogMiddleware :=
  foldl (fun lmw option => option lmw) {| Next := next; panicCode := 0 |} options.

Definition WithPanicStatus (statusCode : Z) : LogOption :=
  fun lmw => {| Next := Next lmw; panicCode := statusCode |}.

(** The loop of [identifyLogOrigin] over the frames. *)
Fixpoint identifyLogOrigin_loop (frames : list Frame) (name file : string) (line : Z)
  : string * string * Z :=
  match frames with
  | [] => (name, file, line)
  | f :: rest =>
      match frame_fn f with
      | None => identifyLogOrigin_loop rest name file line
      | Some fn =>
          if negb (HasPrefix (fn_Name fn) "runtime.")
          then (fn_Name fn, fn_File fn, fn_Line fn)
          else identifyLogOrigin_loop rest (fn_Name fn) (fn_File fn) (fn_Line fn)
      end
  end.

(** [identifyLogOrigin]: where a panic was raised. The array [pc] has
    16 slots; the unused ones are zero. *)
Definition identifyLogOrigin (stack : list Frame) : string :=
  let frames := take 16 stack in
  let '(name, file, line) := identifyLogOrigin_loop frames "" "" 0%Z in
  if negb (String.eqb name "") then name +:+ ":" +:+ fmt_int line
  else if negb (String.eqb file "") then file +:+ ":" +:+ fmt_int line
  else
    let pc := (frame_pc <$> frames) ++ replicate (16 - length frames) 0%N in
    "pc:[" +:+ Join (fmt_hex <$> pc) " " +:+ "]".

Record logResponseWriter := { ResponseWriter : ResponseWriterT; statusCode : Z }.

Definition lrw_Write (lrw : logResponseWriter) (b : string) : logResponseWriter :=
  {| ResponseWriter := ResponseWriter lrw ++ [CallWrite b];
     statusCode := statusCode lrw |}.

Definition lrw_WriteHeader (lrw : logResponseWriter) (code : Z) : logResponseWriter :=
  {| ResponseWriter := ResponseWriter lrw ++ [CallWriteHeader code];
     statusCode := code |}.

(** One call of the handler on the wrapper it was given. *)
Definition lrw_call (lrw : logResponseWriter) (c : WriterCall) : logResponseWriter :=
  match c with
  | CallWriteHeader code => lrw_WriteHeader lrw code
  | CallWrite b => lrw_Write lrw b
  end.

(** What [ServeHTTP] leaves behind: the events it logged, the
    underlying response writer, and the panic that leaves the function,
    if one does. *)
Record Served := {
  logged : list Event;
  writer : ResponseWriterT;
  unwinding : option PanicValue
}.

Section Serve.
Variable rg : MapRange.
Variable g : Globals.
(** [EnsureCorrelationId] (file correlation_id.go) is not part of the
    sources at hand; it may change the request's headers. *)
Variable EnsureCorrelationId : Request -> Request.

(** [recover()]: the value of the panic under way, if there is one,
    and the state of the goroutine afterwards, which is no longer
    panicking. *)
Definition recover (pending : Completion) : option (PanicValue * list Frame) * Completion :=
  match pending with
  | Returned => (None, Returned)
  | Panicked rec stack => (Some (rec, stack), Returned)
  end.

(** The statements of [ServeHTTP] after the [defer]: the handler
    runs on the wrapper; [Access] is reached only if it returns. *)
Definition ServeHTTP_body (mw : LogMiddleware) (w : ResponseWriterT) (r : Request)
  (start now : Z) : list Event * ResponseWriterT * Completion :=
  let lrw := {| ResponseWriter := w; statusCode := 200 |} in
  let run := Next mw r in
  let lrw := foldl lrw_call lrw (calls run) in
  match completion run with
  | Returned => (Access rg g r start now (statusCode lrw), ResponseWriter lrw, Returned)
  | Panicked rec stack => ([], ResponseWriter lrw, Panicked rec stack)
  end.

(** The deferred function, run on both ways out of the body. *)
Definition ServeHTTP_deferred (mw : LogMiddleware) (w : ResponseWriterT) (r : Request)
  (start now : Z) (pending : Completion) : list Event * ResponseWriterT * Completion :=
  match recover pending with
  | (Some (rec, stack), after) =>
      let err := "PANIC (" +:+ identifyLogOrigin stack +:+ "): " +:+ fmt_v rec in
      (AccessError rg g r start now err,
       if negb (panicCode mw =? 0)%Z
       then w ++ [CallWriteHeader (panicCode mw)] else w,
       after)
  | (None, after) => ([], w, after)
  end.

(** [ServeHTTP]. [start] is the time at entry, [now] the time at
    which the event is built. *)
Definition ServeHTTP (mw : LogMiddleware) (w : ResponseWriterT) (r : Request)
  (start now : Z) : Served :=
  let r := EnsureCorrelationId r in
  let '(events, w, pending) := ServeHTTP_body mw w r start now in
  let '(events', w, after) := ServeHTTP_deferred mw w r start now pending in
  {| logged := events ++ events';
     writer := w;
     unwinding :=
       match after with
       | Returned => None
       | Panicked rec _ => Some rec
       end |}.

(** A server that hands one request after the other to the same
    middleware, until a panic leaves [ServeHTTP]. Each request comes
    with its response writer and its two clock readings. *)
Fixpoint serve (mw : LogMiddleware) (reqs : list (Request * ResponseWriterT * Z * Z))
  : list Served :=
  match reqs with
  | [] => []
  | (r, w, start, now) :: rest =>
      let s := ServeHTTP mw w r start now in
      match unwinding s with
      | Some _ => [s]
      | None => s :: serve mw rest
      end
  end.
End Serve.

End Middleware.
Export Middleware.

(** ** Notions used in the statements *)

Module Notions.

(** The first pass of [unescape] accepts [s], whatever it has counted
    so far. *)
Definition scans (s : string) : Prop :=
  forall n hasPlus, is_Some (unescape_scan s n hasPlus).

(** One [key=value] pair as [Encode] writes it, and as it reads after
    [QueryUnescape]. *)
Definition enc_pair (p : string * string) : string :=
  QueryEscape p.1 +:+ "=" +:+ QueryEscape p.2.
Definition show_pair (p : string * string) : string :=
  p.1 +:+ "=" +:+ p.2.

(** The pairs the two loops of [Encode] visit, in their order. *)
Definition Encode_pairs (rg : MapRange) (v : Values) : list (string * string) :=
  k ← SortStrings (map_keys rg v); (fun x => (k, x)) <$> (v !!! k).

(** Appending one segment to the buffer of [Encode]. *)
Definition write_segment (buf seg : string) : string :=
  (if (0 <? String.length buf)%nat then buf +:+ "&" else buf) +:+ seg.

(** The keys of a map in ascending order. *)
Definition sorted_keys {V : Type} (m : gmap string V) : list string :=
  SortStrings (map_to_list m).*1.

(** The parameters of a query after the loop of [buildFullPath]. *)
Definition redact_values (g : Globals) (key : string) (value : list string) : list string :=
  if contains (AnonymizedQueryParams g) key then ["*****"] else value.

Definition redacted (g : Globals) (q : Values) : Values :=
  map_imap (fun key value => Some (redact_values g key value)) q.

(** The pairs that [buildFullPath] writes after the path. *)
Definition logged_pairs (g : Globals) (r : Request) : list (string * string) :=
  k ← sorted_keys (Query (URL r));
  (fun x => (k, x)) <$> redact_values g k (Query (URL r) !!! k).

(** The severity the spec derives from a status code: 200 to 399 is
    info, 400 to 499 is warning, anything else is error. *)
Definition severity_of_status (s : Z) : Level :=
  if decide (200 <= s <= 399)%Z then InfoLevel
  else if decide (400 <= s <= 499)%Z then WarnLevel
  else ErrorLevel.

(** The value a correlation field must have for a header value [v]:
    absent when [v] is empty, [v] itself otherwise. *)
Definition correlation_field (v : string) : option FieldValue :=
  if decide (v = "") then None else Some (FStr v).

(** Both correlation fields of [fields] reflect the headers [h]. *)
Definition carries_correlation_ids (g : Globals) (h : HeaderT) (fields : Fields) : Prop :=
  fields !! "correlation_id" = correlation_field (Header_Get h (CorrelationIdHeader g))
  /\ fields !! "user_correlation_id"
     = correlation_field (Header_Get h (UserCorrelationIdHeader g)).

(** The cookies [access] keeps for the event. *)
Definition kept_cookies (g : Globals) (r : Request) : gmap string string :=
  foldl (keep_cookie g) ∅ (Cookies r).

(** The value of the last cookie of a list that bears a given name. *)
Fixpoint last_cookie (cs : list Cookie) (name : string) : option string :=
  match cs with
  | [] => None
  | c :: rest =>
      match last_cookie rest name with
      | Some v => Some v
      | None => if decide (Name c = name) then Some (Value c) else None
      end
  end.

(** The status codes a handler passed to [WriteHeader], in order. *)
Definition WriteHeader_codes (cs : list WriterCall) : list Z :=
  omap (fun c => match c with CallWriteHeader code => Some code | CallWrite _ => None end) cs.

Definition first_WriteHeader (cs : list WriterCall) : option Z := head (WriteHeader_codes cs).
Definition last_WriteHeader (cs : list WriterCall) : option Z := last (WriteHeader_codes cs).

(** The text [ServeHTTP] passes to [AccessError] for a panic. *)
Definition panic_text (rec : PanicValue) (stack : list Frame) : string :=
  "PANIC (" +:+ identifyLogOrigin stack +:+ "): " +:+ fmt_v rec.

(** The text after the path in the logged url: nothing for a query
    without parameters, else [?] and the pairs joined with [&]. *)
Definition logged_query (g : Globals) (r : Request) : string :=
  match logged_pairs g r with
  | [] => ""
  | ps => "?" +:+ Join (show_pair <$> ps) "&"
  end.

(** [scheme://host[:port]], the text [buildFullUrl] writes before the
    path. *)
Definition url_origin (r : Request) : string :=
  (if negb (String.eqb (Port (URL r)) "")
   then (Scheme (URL r) +:+ "://" +:+ Hostname (URL r)) +:+ (":" +:+ Port (URL r))
   else Scheme (URL r) +:+ "://" +:+ Hostname (URL r)).

(** What [parseQuery] does with one well-formed pair. *)
Definition add_pair (m : Values) (p : string * string) : Values :=
  <[p.1 := (m !!! p.1) ++ [p.2]]> m.

(** A key or value that [parseQuery] reads as it is written: it holds
    no escape ([%], [+]) and no separator ([;], [&]); a key holds no
    [=] either. *)
Definition plain_value (s : string) : bool :=
  negb (ContainsByte s "%") && negb (ContainsByte s "+")
  && negb (ContainsByte s ";") && negb (ContainsByte s "&").
Definition plain_key (s : string) : bool :=
  plain_value s && negb (ContainsByte s "=").

Fixpoint ascending (keys : list string) : bool :=
  match keys with
  | k1 :: ((k2 :: _) as rest) => String.leb k1 k2 && ascending rest
  | _ => true
  end.

(** A query in the form [Encode] writes and [QueryUnescape] leaves
    alone: pairs of plain keys and values, keys in ascending order. *)
Definition canonical_pairs (ps : list (string * string)) : bool :=
  forallb (fun p => plain_key p.1 && plain_value p.2) ps && ascending ps.*1.

End Notions.
Export Notions.

(** ** Lifecycle events (logger.go) *)

Module Lifecycle.

(** The process environment, as [os.Getenv] reads it: a variable that
    is not set reads as the empty string. *)
Abbreviation Environ := (gmap string string).

Definition Getenv (env : Environ) (key : string) : string :=
  default "" (env !! key).

(** [fmt.Sprintf("%v", signal)] for an [os.Signal]: nil prints as
    [<nil>], a signal as its [String()]. *)
Definition fmt_signal (signal : option string) : string :=
  match signal with
  | Some name => name
  | None => "<nil>"
  end.

(** [Entry.WithError(err)]: the entry with the error under [ErrorKey]. *)
Definition WithError (e : Entry) (err : string) : Entry :=
  <[ErrorKey := FStr err]> e.

(** [LifecycleStop]: logs the stop of an application. [signal] holds
    the signal's [String()], or is nil. *)
Definition LifecycleStop (env : Environ) (appName : string) (signal : option string)
  (err : option string) : list Event :=
  let fields : Fields :=
    <["type" := FStr "lifecycle"]> (<["event" := FStr "stop"]> ∅) in
  let fields :=
    match signal with
    | Some name => <["signal" := FStr name]> fields
    | None => fields
    end in
  let fields :=
    if negb (String.eqb (Getenv env "BUILD_NUMBER") "")
    then <["build_number" := FStr (Getenv env "BUILD_NUMBER")]> fields
    else fields in
  match err with
  | Some e =>
      Entry_Error (WithError (WithFields fields) e)
        ("stopping application: " +:+ appName +:+ " (" +:+ e +:+ ")")
  | None =>
      Entry_Info (WithFields fields)
        ("stopping application: " +:+ appName +:+ " (" +:+ fmt_signal signal +:+ ")")
  end.

End Lifecycle.
Export Lifecycle.

(** ** Further notions used in the statements *)

Module MoreNotions.

(** The globals with other redaction lists. *)
Definition with_policy (blacklist anonymized : list string) (g : Globals) : Globals :=
  {| Logger := Logger g;
     AccessLogCookiesBlacklist := blacklist;
     AnonymizedQueryParams := anonymized;
     CorrelationIdHeader := CorrelationIdHeader g;
     UserCorrelationIdHeader := UserCorrelationIdHeader g |}.

(** The cookies of a request whose names are not blacklisted. *)
Definition loggable_cookies (g : Globals) (r : Request) : list Cookie :=
  filter (fun c => contains (AccessLogCookiesBlacklist g) (Name c) = false) (Cookies r).

(** The query parameters of a request whose names are not anonymized. *)
Definition open_parameters (g : Globals) (r : Request) : Values :=
  filter (fun kv => contains (AnonymizedQueryParams g) kv.1 = false) (Query (URL r)).

(** A frame [identifyLogOrigin] passes over: one without a known
    function, or one of a function of package runtime. *)
Definition skipped_frame (f : Frame) : bool :=
  match frame_fn f with
  | None => true
  | Some fn => HasPrefix (fn_Name fn) "runtime."
  end.

(** The names of the fields every access event has, and of those it
    may have besides. *)
Definition access_base_fields : gset string :=
  {[ "type"; "@timestamp"; "remote_ip"; "host"; "url"; "method"; "proto"; "duration";
     "User_Agent" ]}.
Definition access_optional_fields : gset string :=
  {[ "response_status"; "error"; "correlation_id"; "user_correlation_id"; "cookies" ]}.

(** What the response writer receives from [ServeHTTP] after the
    handler's own calls. *)
Definition panic_status_call (mw : LogMiddleware) (c : Completion) : list WriterCall :=
  match c with
  | Returned => []
  | Panicked _ _ => if (panicCode mw =? 0)%Z then [] else [CallWriteHeader (panicCode mw)]
  end.

(** The request with another raw query. *)
Definition with_RawQuery (query : string) (r : Request) : Request :=
  {| Method := Method r;
     URL := {| Scheme := Scheme (URL r); Hostname := Hostname (URL r); Port := Port (URL r);
               Path := Path (URL r); RawQuery := query |};
     Proto := Proto r;
     Header := Header r;
     Host := Host r;
     RemoteAddr := RemoteAddr r;
     Cookies := Cookies r |}.

End MoreNotions.
Export MoreNotions.

(** ** The requests and handlers of the package's tests *)

Module Scenarios.

Definition globals : Globals :=
  {| Logger := {| Formatter := LogstashFormatter; Level_ := InfoLevel |};
     AccessLogCookiesBlacklist := ["ignore"; "user_id"];
     AnonymizedQueryParams := [];
     CorrelationIdHeader := "X-Correlation-Id";
     UserCorrelationIdHeader := "X-User-Correlation-Id" |}.

Definition anonymizing (names : list string) : Globals :=
  {| Logger := Logger globals;
     AccessLogCookiesBlacklist := AccessLogCookiesBlacklist globals;
     AnonymizedQueryParams := names;
     CorrelationIdHeader := CorrelationIdHeader globals;
     UserCorrelationIdHeader := UserCorrelationIdHeader globals |}.

(** [GET http://www.example.org<path>?<query>] with the headers of the
    tests. *)
Definition request (path query : string) (cookies : list Cookie) : Request :=
  {| Method := "GET";
     URL := {| Scheme := "http"; Hostname := "www.example.org"; Port := "";
               Path := path; RawQuery := query |};
     Proto := "HTTP/1.1";
     Header := <["X-Correlation-Id" := ["correlation-123"]]>
               (<["X-User-Correlation-Id" := ["user-correlation-123"]]> ∅);
     Host := "www.example.org";
     RemoteAddr := "127.0.0.1";
     Cookies := cookies |}.

(** A handler that sets two status codes in a row. *)
Definition two_codes : Handler :=
  fun _ => {| calls := [CallWriteHeader 404; CallWriteHeader 500; CallWrite "gone"];
              completion := Returned |}.

(** A handler that panics with the string "boom" on the path /boom and
    answers 204 on every other path. *)
Definition main_frame : Frame :=
  {| frame_pc := 4198400;
     frame_fn := Some {| fn_Name := "main.handler"; fn_File := "main.go"; fn_Line := 12 |} |}.
Definition runtime_frame : Frame :=
  {| frame_pc := 4210688;
     frame_fn := Some {| fn_Name := "runtime.gopanic"; fn_File := "panic.go";
                         fn_Line := 884 |} |}.

Definition booming : Handler :=
  fun r =>
    if String.eqb (Path (URL r)) "/boom"
    then {| calls := []; completion := Panicked (PanicString "boom") [runtime_frame; main_frame] |}
    else {| calls := [CallWriteHeader 204]; completion := Returned |}.

Definition foo_q_bar : Request :=
  request "/foo" "q=bar" [ {| Name := "ignore"; Value := "me" |};
                           {| Name := "foo"; Value := "bar" |} ].

End Scenarios.
Import Scenarios.

(** * Properties *)

(** ** Strings *)

Section StringFacts.

Lemma append_nil_l (b : string) : "" +:+ b = b.
Proof. reflexivity. Qed.

Lemma append_cons (x : ascii) (a b : string) : String x a +:+ b = String x (a +:+ b).
Proof. reflexivity. Qed.

Lemma append_assoc (a b c : string) : (a +:+ b) +:+ c = a +:+ (b +:+ c).
Proof.
  induction a as [|x a IH]; [reflexivity|].
  rewrite !append_cons. now rewrite IH.
Qed.

Lemma append_nil_r (a : string) : a +:+ "" = a.
Proof.
  induction a as [|x a IH]; [reflexivity|].
  rewrite append_cons. now rewrite IH.
Qed.

Lemma append_length (a b : string) :
  String.length (a +:+ b) = (String.length a + String.length b)%nat.
Proof.
  induction a as [|x a IH]; [reflexivity|].
  rewrite append_cons. simpl. now rewrite IH.
Qed.

Lemma eqb_empty_length (s : string) :
  String.eqb s "" = (String.length s =? 0)%nat.
Proof. destruct s; reflexivity. Qed.

Lemma eqb_empty_false (s : string) : s <> "" -> String.eqb s "" = false.
Proof. intros H. now apply String.eqb_neq. Qed.

(** Strong induction on the length of a string, for the functions
    that consume three bytes at a time. *)
Lemma string_length_ind (P : string -> Prop) :
  (forall s, (forall t, (String.length t < String.length s)%nat -> P t) -> P s) ->
  forall s, P s.
Proof.
  intros step s.
  enough (H : forall n t, (String.length t < n)%nat -> P t)
    by (apply (H (S (String.length s))); lia).
  induction n as [|n IH]; intros t Ht; [lia|].
  apply step. intros u Hu. apply IH. lia.
Qed.

End StringFacts.

(** ** QueryEscape and QueryUnescape *)

Section Escaping.

Lemma scans_empty : scans "".
Proof. intros n p. simpl. eauto. Qed.

Lemma scans_plain (c : ascii) (t : string) :
  Ascii.eqb c "%" = false -> scans t -> scans (String c t).
Proof.
  intros Hc Ht n p. simpl. rewrite Hc. destruct (Ascii.eqb c "+"); apply Ht.
Qed.

Lemma scans_escape_byte (c : ascii) (t : string) :
  scans t -> scans (escape_byte c +:+ t).
Proof.
  intros Ht n p.
  destruct c as [[] [] [] [] [] [] [] []]; exact (Ht _ _).
Qed.

Lemma build_escape_byte (c : ascii) (t : string) :
  unescape_build (escape_byte c +:+ t) = String c (unescape_build t).
Proof. destruct c as [[] [] [] [] [] [] [] []]; reflexivity. Qed.

Lemma scans_QueryEscape (a t : string) : scans t -> scans (QueryEscape a +:+ t).
Proof.
  intros Ht. induction a as [|c a IH]; cbn [QueryEscape]; [exact Ht|].
  rewrite append_assoc. now apply scans_escape_byte.
Qed.

Lemma build_QueryEscape (a t : string) :
  unescape_build (QueryEscape a +:+ t) = a +:+ unescape_build t.
Proof.
  induction a as [|c a IH]; cbn [QueryEscape]; [reflexivity|].
  rewrite append_assoc, build_escape_byte, append_cons. now rewrite IH.
Qed.

(** The counters of the first pass only grow. *)
Lemma unescape_scan_mono (s : string) :
  forall n p n' p', unescape_scan s n p = Some (n', p') ->
    (n <= n')%nat /\ (p = true -> p' = true).
Proof.
  induction s as [s IH] using string_length_ind. intros n p n' p' H.
  destruct s as [|c rest]; simpl in H.
  - inversion H; subst. split; [lia | auto].
  - destruct (Ascii.eqb c "%").
    + destruct rest as [|h1 [|h2 rest']]; try discriminate.
      destruct (ishex h1 && ishex h2); [|discriminate].
      apply IH in H; [|simpl; lia]. destruct H as [H1 H2]. split; [lia | auto].
    + destruct (Ascii.eqb c "+").
      * apply IH in H; [|simpl; lia]. destruct H as [H1 H2]. split; auto.
      * apply IH in H; [|simpl; lia]. exact H.
Qed.

(** When the first pass saw neither [%] nor [+], decoding changes
    nothing: the shortcut of [unescape] returns what the second pass
    would. *)
Lemma unescape_build_untouched (s : string) :
  forall n, unescape_scan s n false = Some (n, false) -> unescape_build s = s.
Proof.
  induction s as [s IH] using string_length_ind. intros n H.
  destruct s as [|c rest]; simpl in *; [reflexivity|].
  destruct (Ascii.eqb c "%").
  - destruct rest as [|h1 [|h2 rest']]; try discriminate.
    destruct (ishex h1 && ishex h2); [|discriminate].
    apply unescape_scan_mono in H. lia.
  - destruct (Ascii.eqb c "+").
    + apply unescape_scan_mono in H. destruct H as [_ H].
      specialize (H eq_refl). discriminate.
    + f_equal. apply (IH rest ltac:(simpl; lia) n H).
Qed.

Lemma QueryUnescape_scans (s : string) :
  scans s -> QueryUnescape s = Some (unescape_build s).
Proof.
  intros Hs. unfold QueryUnescape.
  destruct (Hs 0%nat false) as [[n p] H]. rewrite H.
  destruct (Nat.eqb_spec n 0) as [->|_]; simpl; [|reflexivity].
  destruct p; simpl; [reflexivity|].
  now rewrite (unescape_build_untouched s 0 H).
Qed.

(** [QueryUnescape] undoes [QueryEscape], on every string. *)
Lemma QueryUnescape_QueryEscape (a : string) :
  QueryUnescape (QueryEscape a) = Some a.
Proof.
  rewrite <- (append_nil_r (QueryEscape a)).
  rewrite QueryUnescape_scans by (apply scans_QueryEscape, scans_empty).
  rewrite build_QueryEscape. simpl. now rewrite append_nil_r.
Qed.

End Escaping.

(** ** Values.Encode *)

Section EncodeFacts.

Lemma Join_cons (x y : string) (l : list string) (sep : string) :
  Join (x :: y :: l) sep = x +:+ sep +:+ Join (y :: l) sep.
Proof. reflexivity. Qed.

Lemma Join_merge (a x : string) (l : list string) :
  Join ((a +:+ "&" +:+ x) :: l) "&" = Join (a :: x :: l) "&".
Proof.
  destruct l as [|y l]; [reflexivity|].
  rewrite !Join_cons. now rewrite !append_assoc.
Qed.

Lemma write_segments_nonempty (segs : list string) :
  forall buf, buf <> "" -> foldl write_segment buf segs = Join (buf :: segs) "&".
Proof.
  induction segs as [|x segs IH]; intros buf Hb; [reflexivity|].
  simpl foldl. unfold write_segment at 2.
  assert (Hlen : (0 <? String.length buf)%nat = true).
  { apply Nat.ltb_lt. destruct buf; [congruence | simpl; lia]. }
  rewrite Hlen, append_assoc, IH, Join_merge; [reflexivity|].
  destruct buf; [congruence | discriminate].
Qed.

Lemma write_segments (segs : list string) :
  Forall (fun x => x <> "") segs -> foldl write_segment "" segs = Join segs "&".
Proof.
  destruct segs as [|x segs]; [reflexivity|].
  intros H. apply Forall_cons in H as [Hx _]. simpl foldl.
  change (write_segment "" x) with x. now apply write_segments_nonempty.
Qed.

Lemma enc_pair_nonempty (p : string * string) : enc_pair p <> "".
Proof.
  unfold enc_pair. intros H. apply (f_equal String.length) in H.
  rewrite !append_length in H. simpl in H. lia.
Qed.

Lemma Encode_value_fold (keyEscaped buf : string) (vs : list string) :
  foldl (Encode_value keyEscaped) buf vs
  = foldl write_segment buf ((fun x => keyEscaped +:+ "=" +:+ QueryEscape x) <$> vs).
Proof.
  revert buf. induction vs as [|x vs IH]; intros buf; [reflexivity|].
  simpl. now rewrite IH.
Qed.

Lemma Encode_key_fold (v : Values) (keys : list string) :
  forall buf,
    foldl (Encode_key v) buf keys
    = foldl write_segment buf
        (enc_pair <$> (k ← keys; (fun x => (k, x)) <$> (v !!! k))).
Proof.
  induction keys as [|k keys IH]; intros buf; [reflexivity|].
  rewrite bind_cons, fmap_app, foldl_app. cbn [foldl]. rewrite IH. f_equal.
  unfold Encode_key. rewrite Encode_value_fold. f_equal.
  rewrite <- list_fmap_compose. reflexivity.
Qed.

(** What [range] yields for an empty map. *)
Lemma range_empty (rg : MapRange) {V : Type} (m : gmap string V) :
  size m = 0%nat -> range rg m = [].
Proof.
  intros H. apply map_size_empty_iff in H. subst m.
  apply Permutation_nil_r. rewrite range_perm, map_to_list_empty. reflexivity.
Qed.

(** [Encode] joins its pairs with [&]. *)
Lemma Encode_Join (rg : MapRange) (v : Values) :
  Encode rg v = Join (enc_pair <$> Encode_pairs rg v) "&".
Proof.
  unfold Encode, Encode_pairs. destruct (Nat.eqb_spec (size v) 0) as [H0|_].
  - unfold map_keys. rewrite (range_empty rg v H0). reflexivity.
  - rewrite Encode_key_fold. apply write_segments.
    apply Forall_fmap, Forall_true. intros p. apply enc_pair_nonempty.
Qed.

(** The first pass of [unescape] accepts what [Encode] writes, and the
    second pass yields the pairs themselves. *)
Lemma scans_enc_pair (p : string * string) (t : string) :
  scans t -> scans (enc_pair p +:+ t).
Proof.
  intros Ht. unfold enc_pair. rewrite !append_assoc.
  apply scans_QueryEscape. rewrite append_cons, append_nil_l.
  apply scans_plain; [reflexivity|]. now apply scans_QueryEscape.
Qed.

Lemma build_enc_pair (p : string * string) (t : string) :
  unescape_build (enc_pair p +:+ t) = show_pair p +:+ unescape_build t.
Proof.
  unfold enc_pair, show_pair. rewrite !append_assoc, build_QueryEscape.
  rewrite !append_cons, !append_nil_l. cbn [unescape_build Ascii.eqb Bool.eqb].
  now rewrite build_QueryEscape.
Qed.

Lemma scans_Join (ps : list (string * string)) :
  scans (Join (enc_pair <$> ps) "&").
Proof.
  induction ps as [|p [|p' ps] IH].
  - apply scans_empty.
  - simpl. rewrite <- (append_nil_r (enc_pair p)). apply scans_enc_pair, scans_empty.
  - rewrite !fmap_cons, Join_cons. apply scans_enc_pair.
    rewrite append_cons, append_nil_l. apply scans_plain; [reflexivity|]. exact IH.
Qed.

Lemma build_Join (ps : list (string * string)) :
  unescape_build (Join (enc_pair <$> ps) "&") = Join (show_pair <$> ps) "&".
Proof.
  induction ps as [|p [|p' ps] IH].
  - reflexivity.
  - simpl. rewrite <- (append_nil_r (enc_pair p)), build_enc_pair.
    simpl. now rewrite append_nil_r.
  - rewrite !fmap_cons, !Join_cons, build_enc_pair.
    rewrite !append_cons, !append_nil_l. cbn [unescape_build Ascii.eqb Bool.eqb].
    rewrite <- fmap_cons, IH. reflexivity.
Qed.

(** [QueryUnescape] never fails on the output of [Encode]; the decoded
    text is the pairs of [Encode], unescaped, joined with [&]. *)
Lemma QueryUnescape_Encode (rg : MapRange) (v : Values) :
  QueryUnescape (Encode rg v) = Some (Join (show_pair <$> Encode_pairs rg v) "&").
Proof.
  rewrite Encode_Join, QueryUnescape_scans by apply scans_Join.
  now rewrite build_Join.
Qed.

Lemma Join_show_empty (ps : list (string * string)) :
  Join (show_pair <$> ps) "&" = "" <-> ps = [].
Proof.
  split; [|intros ->; reflexivity].
  destruct ps as [|p [|p' ps]]; [reflexivity| |]; intros H;
    apply (f_equal String.length) in H; simpl in H; unfold show_pair in H;
    rewrite ?fmap_cons, ?Join_cons, !append_length in H; simpl in H; lia.
Qed.

End EncodeFacts.

(** ** Independence of the order of [range] *)

Section RangeFacts.

Lemma SortStrings_Permutation (l1 l2 : list string) :
  l1 ≡ₚ l2 -> SortStrings l1 = SortStrings l2.
Proof.
  intros H. unfold SortStrings.
  apply (StronglySorted_unique String.le).
  - apply StronglySorted_merge_sort; apply _.
  - apply StronglySorted_merge_sort; apply _.
  - now rewrite !merge_sort_Permutation.
Qed.

Lemma map_keys_sorted (rg : MapRange) {V : Type} (m : gmap string V) :
  SortStrings (map_keys rg m) = sorted_keys m.
Proof.
  apply SortStrings_Permutation. unfold map_keys. now rewrite range_perm.
Qed.

Lemma elem_of_keys {V : Type} (m : gmap string V) (k : string) :
  k ∈ (map_to_list m).*1 <-> is_Some (m !! k).
Proof.
  rewrite list_elem_of_fmap. split.
  - intros [[k' x] [-> H]]. apply elem_of_map_to_list in H. simpl. eauto.
  - intros [x H]. exists (k, x). split; [reflexivity|].
    now apply elem_of_map_to_list.
Qed.

Lemma elem_of_sorted_keys {V : Type} (m : gmap string V) (k : string) :
  k ∈ sorted_keys m <-> is_Some (m !! k).
Proof.
  unfold sorted_keys, SortStrings. rewrite merge_sort_Permutation.
  apply elem_of_keys.
Qed.

Lemma NoDup_sorted_keys {V : Type} (m : gmap string V) : NoDup (sorted_keys m).
Proof.
  unfold sorted_keys, SortStrings. rewrite merge_sort_Permutation.
  apply NoDup_fst_map_to_list.
Qed.

Lemma sorted_keys_same_dom {V W : Type} (m1 : gmap string V) (m2 : gmap string W) :
  (forall k, is_Some (m1 !! k) <-> is_Some (m2 !! k)) ->
  sorted_keys m1 = sorted_keys m2.
Proof.
  intros H. apply SortStrings_Permutation.
  apply NoDup_Permutation; try apply NoDup_fst_map_to_list.
  intros k. rewrite !elem_of_keys. apply H.
Qed.

(** The loop of [buildFullPath] assigns each key once, so the order
    in which it meets the keys has no influence on the map it builds. *)
Lemma redact_fold_lookup (g : Globals) (l : list (string * list string)) :
  forall (m : Values) (k : string),
    NoDup l.*1 ->
    foldl (redact_param g) m l !! k
    = match (list_to_map l : Values) !! k with
      | Some value => Some (redact_values g k value)
      | None => m !! k
      end.
Proof.
  induction l as [|[k0 v0] l IH]; intros m k Hnd; [reflexivity|].
  apply NoDup_cons in Hnd as [Hk0 Hnd]. cbn [foldl]. rewrite IH by exact Hnd.
  cbn [list_to_map foldr curry fst snd]. destruct (decide (k0 = k)) as [->|Hne].
  - rewrite lookup_insert_eq.
    rewrite (not_elem_of_list_to_map_1 l k) by exact Hk0.
    unfold redact_param, redact_values.
    destruct (contains (AnonymizedQueryParams g) k); now rewrite lookup_insert_eq.
  - rewrite (lookup_insert_ne _ k0 k) by exact Hne.
    destruct (list_to_map l !! k); [reflexivity|].
    unfold redact_param.
    destruct (contains (AnonymizedQueryParams g) k0); now rewrite lookup_insert_ne.
Qed.

Lemma redact_fold (rg : MapRange) (g : Globals) (q : Values) :
  foldl (redact_param g) ∅ (range rg q) = redacted g q.
Proof.
  apply map_eq. intros k.
  assert (Hperm := range_perm rg _ q).
  rewrite redact_fold_lookup.
  - rewrite <- (list_to_map_flip q (range rg q)) by (now symmetry).
    unfold redacted. rewrite map_lookup_imap, lookup_empty.
    destruct (q !! k); reflexivity.
  - rewrite Hperm. apply NoDup_fst_map_to_list.
Qed.

Lemma redacted_lookup (g : Globals) (q : Values) (k : string) :
  redacted g q !! k = redact_values g k <$> q !! k.
Proof. unfold redacted. rewrite map_lookup_imap. destruct (q !! k); reflexivity. Qed.

Lemma bind_ext_in {A B : Type} (f h : A -> list B) (l : list A) :
  (forall x, x ∈ l -> f x = h x) -> l ≫= f = l ≫= h.
Proof.
  induction l as [|x l IH]; intros H; [reflexivity|].
  rewrite !bind_cons, (H x) by apply list_elem_of_here.
  rewrite IH; [reflexivity|]. intros y Hy. apply H. now apply list_elem_of_further.
Qed.

Lemma Encode_pairs_redacted (rg : MapRange) (g : Globals) (r : Request) :
  Encode_pairs rg (redacted g (Query (URL r))) = logged_pairs g r.
Proof.
  unfold Encode_pairs, logged_pairs. rewrite map_keys_sorted.
  rewrite (sorted_keys_same_dom _ (Query (URL r))).
  - apply bind_ext_in. intros k Hk. f_equal.
    apply elem_of_sorted_keys in Hk as [value Hk].
    unfold lookup_total, map_lookup_total.
    rewrite redacted_lookup, Hk. reflexivity.
  - intros k. rewrite redacted_lookup, fmap_is_Some. reflexivity.
Qed.

(** [buildFullPath] is the path, followed, when the query has
    parameters, by [?] and the pairs [key=value] joined with [&]. *)
Lemma buildFullPath_pairs (rg : MapRange) (g : Globals) (r : Request) :
  buildFullPath rg g r
  = match logged_pairs g r with
    | [] => Path (URL r)
    | ps => Path (URL r) +:+ "?" +:+ Join (show_pair <$> ps) "&"
    end.
Proof.
  unfold buildFullPath.
  rewrite redact_fold, QueryUnescape_Encode, Encode_pairs_redacted.
  destruct (logged_pairs g r) as [|p ps] eqn:Hps; [reflexivity|].
  rewrite eqb_empty_false; [reflexivity|].
  rewrite Join_show_empty. discriminate.
Qed.

Lemma filter_pairs_same {B : Type} (k : string) (l : list B) :
  filter (fun p : string * B => p.1 = k) ((fun x => (k, x)) <$> l)
  = (fun x => (k, x)) <$> l.
Proof.
  induction l as [|x l IHl]; [reflexivity|].
  rewrite fmap_cons, filter_cons_True by reflexivity. now rewrite IHl.
Qed.

Lemma filter_pairs_other {B : Type} (k k0 : string) (l : list B) :
  k0 <> k ->
  filter (fun p : string * B => p.1 = k) ((fun x => (k0, x)) <$> l) = [].
Proof.
  intros Hne. induction l as [|x l IHl]; [reflexivity|].
  rewrite fmap_cons, filter_cons_False by (simpl; congruence). exact IHl.
Qed.

(** The pairs written for one key of the query. *)
Lemma filter_bind_key {B : Type} (f : string -> list B) (keys : list string) (k : string) :
  NoDup keys ->
  filter (fun p => p.1 = k) (k' ← keys; (fun x => (k', x)) <$> f k')
  = if decide (k ∈ keys) then (fun x => (k, x)) <$> f k else [].
Proof.
  induction keys as [|k0 keys IH]; intros Hnd.
  - rewrite decide_False by apply not_elem_of_nil. reflexivity.
  - apply NoDup_cons in Hnd as [Hk0 Hnd].
    rewrite bind_cons, filter_app, IH by exact Hnd.
    destruct (decide (k0 = k)) as [->|Hne].
    + rewrite (decide_True (P := k ∈ k :: keys)) by apply list_elem_of_here.
      rewrite decide_False by exact Hk0. rewrite app_nil_r.
      apply filter_pairs_same.
    + rewrite filter_pairs_other by exact Hne. rewrite app_nil_l.
      destruct (decide (k ∈ keys)) as [Hin|Hin].
      * rewrite decide_True by (now apply list_elem_of_further). reflexivity.
      * rewrite decide_False; [reflexivity|].
        intros H. apply elem_of_cons in H as [H|H]; congruence.
Qed.

Lemma logged_pairs_key (g : Globals) (r : Request) (k : string) (value : list string) :
  Query (URL r) !! k = Some value ->
  filter (fun p => p.1 = k) (logged_pairs g r)
  = (fun x => (k, x)) <$> redact_values g k value.
Proof.
  intros Hk. unfold logged_pairs.
  rewrite (filter_bind_key (fun k' => redact_values g k' (Query (URL r) !!! k')))
    by apply NoDup_sorted_keys.
  rewrite decide_True by (apply elem_of_sorted_keys; eauto).
  unfold lookup_total, map_lookup_total. rewrite Hk. reflexivity.
Qed.

Lemma logged_pairs_absent (g : Globals) (r : Request) (k : string) :
  Query (URL r) !! k = None ->
  filter (fun p => p.1 = k) (logged_pairs g r) = [].
Proof.
  intros Hk. unfold logged_pairs.
  rewrite (filter_bind_key (fun k' => redact_values g k' (Query (URL r) !!! k')))
    by apply NoDup_sorted_keys.
  rewrite decide_False; [reflexivity|].
  rewrite elem_of_sorted_keys, Hk. intros [? ?]; discriminate.
Qed.

End RangeFacts.

(** ** Severity and the outbound call reporter *)

Section Severity.
Variable rg : MapRange.
Variable g : Globals.

Lemma Access_event (r : Request) (start now s : Z) :
  Access rg g r start now s
  = [ {| ev_fields := access rg g r start now s None;
         ev_level := severity_of_status s;
         ev_message :=
           if (String.length (RawQuery (URL r)) =? 0)%nat
           then fmt_int s +:+ " ->" +:+ Method r +:+ " " +:+ Path (URL r)
           else fmt_int s +:+ " ->" +:+ Method r +:+ " " +:+ Path (URL r) +:+ "?..." |} ].
Proof.
  unfold Access, severity_of_status.
  destruct (Z.leb_spec 200 s), (Z.leb_spec s 399), (Z.leb_spec 400 s), (Z.leb_spec s 499);
    repeat case_decide; simpl; try reflexivity; lia.
Qed.

Lemma Call_response_level (r : Request) (resp : Response) (start now : Z) :
  ev_level <$> Call rg g r (Some resp) start now None
  = [severity_of_status (StatusCode resp)].
Proof.
  unfold Call, severity_of_status.
  destruct (Z.leb_spec 200 (StatusCode resp)), (Z.leb_spec (StatusCode resp) 399),
    (Z.leb_spec 400 (StatusCode resp)), (Z.leb_spec (StatusCode resp) 499);
    repeat case_decide; simpl; try reflexivity; lia.
Qed.

End Severity.

(** C1: for every status code [s], the event [Access] emits for [s] and
    the event [Call] emits for a response with status [s] have severity
    info when 200 <= s <= 399, warning when 400 <= s <= 499, and error
    in every other case, below 200 and from 500 on included. *)
Theorem severity_by_status (rg : MapRange) (g : Globals) (r : Request)
  (h : HeaderT) (start now s : Z) :
  let access_levels := ev_level <$> Access rg g r start now s in
  let call_levels :=
    ev_level <$> Call rg g r (Some {| StatusCode := s; resp_Header := h |}) start now None in
  ((200 <= s <= 399)%Z -> access_levels = [InfoLevel] /\ call_levels = [InfoLevel])
  /\ ((400 <= s <= 499)%Z -> access_levels = [WarnLevel] /\ call_levels = [WarnLevel])
  /\ ((s < 200 \/ 500 <= s)%Z -> access_levels = [ErrorLevel] /\ call_levels = [ErrorLevel]).
Proof.
  cbv zeta. rewrite Access_event, Call_response_level. cbn [fmap list_fmap ev_level StatusCode].
  unfold severity_of_status.
  split; [|split]; intros H; repeat case_decide; (split; [reflexivity || lia ..]).
Qed.

(** C7: [Call] emits exactly one event. With an error, its severity is
    error and its message is the error text; otherwise, with a response,
    it carries response_status and content_type, its severity derives
    from the status and its message is "<status> <method>-> <full_url>";
    with neither, its severity is warning and its message is
    "call, but no response given". *)
Theorem Call_reports (rg : MapRange) (g : Globals) (r : Request)
  (resp : option Response) (start now : Z) (err : option string) :
  exists ev, Call rg g r resp start now err = [ev] /\
    match err, resp with
    | Some e, _ =>
        ev_level ev = ErrorLevel /\ ev_message ev = e
        /\ ev_fields ev !! ErrorKey = Some (FStr e)
    | None, Some rp =>
        ev_fields ev !! "response_status" = Some (FInt (StatusCode rp))
        /\ ev_fields ev !! "content_type"
           = Some (FStr (Header_Get (resp_Header rp) "Content-Type"))
        /\ ev_level ev = severity_of_status (StatusCode rp)
        /\ ev_message ev
           = fmt_int (StatusCode rp) +:+ " " +:+ Method r +:+ "-> " +:+ buildFullUrl rg g r
    | None, None =>
        ev_level ev = WarnLevel /\ ev_message ev = "call, but no response given"
    end.
Proof.
  destruct err as [e|]; [|destruct resp as [rp|]].
  - eexists. split; [reflexivity|]. cbn [ev_level ev_message ev_fields].
    repeat split. unfold WithFields. apply lookup_insert_eq.
  - pose proof (Call_response_level rg g r rp start now) as Hl.
    unfold Call in *.
    destruct ((200 <=? StatusCode rp)%Z && (StatusCode rp <=? 399)%Z);
      [|destruct ((400 <=? StatusCode rp)%Z && (StatusCode rp <=? 499)%Z)];
      (eexists; split; [reflexivity|]); cbn [ev_level ev_message ev_fields];
      unfold WithFields; (split; [|split; [|split]]);
      try reflexivity; try (now inversion Hl);
      try (rewrite lookup_insert_ne by discriminate; apply lookup_insert_eq);
      try apply lookup_insert_eq.
  - eexists. split; [reflexivity|]. split; reflexivity.
Qed.

(** ** Set *)

(** C8: when [ParseLevel] rejects the level string, [Set] returns its
    error and leaves the globals, [Logger] among them, as they were; when
    it accepts it, [Set] returns nil and [Logger] is a new logger at the
    parsed level. *)
Theorem Set_level (level : string) (textLogging : bool) (g : Globals) :
  (forall err, ParseLevel level = inr err -> Set_ level textLogging g = (g, Some err))
  /\ (forall l, ParseLevel level = inl l ->
        snd (Set_ level textLogging g) = None
        /\ Level_ (Logger (fst (Set_ level textLogging g))) = l
        /\ Formatter (Logger (fst (Set_ level textLogging g)))
           = (if textLogging then TextFormatter else LogstashFormatter)
        /\ fst (Set_ level textLogging g)
           = with_Logger (Logger (fst (Set_ level textLogging g))) g).
Proof.
  unfold Set_. split.
  - intros err ->. reflexivity.
  - intros l ->. repeat split.
Qed.

(** ** Correlation identifiers *)

Section Correlation.
Variable rg : MapRange.
Variable g : Globals.

Lemma setCorrelationIds_other (fields : Fields) (h : HeaderT) (k : string) :
  k <> "correlation_id" -> k <> "user_correlation_id" ->
  setCorrelationIds g fields h !! k = fields !! k.
Proof.
  intros H1 H2. unfold setCorrelationIds.
  destruct (negb (String.eqb (GetUserCorrelationId g h) ""));
    destruct (negb (String.eqb (GetCorrelationId g h) ""));
    rewrite ?lookup_insert_ne by congruence; reflexivity.
Qed.

Lemma setCorrelationIds_carries (fields : Fields) (h : HeaderT) :
  fields !! "correlation_id" = None -> fields !! "user_correlation_id" = None ->
  carries_correlation_ids g h (setCorrelationIds g fields h).
Proof.
  intros H1 H2. unfold carries_correlation_ids, setCorrelationIds, correlation_field,
    GetCorrelationId, GetUserCorrelationId.
  destruct (String.eqb_spec (Header_Get h (UserCorrelationIdHeader g)) "") as [Hu|Hu];
    destruct (String.eqb_spec (Header_Get h (CorrelationIdHeader g)) "") as [Hc|Hc];
    cbn [negb]; repeat case_decide; try congruence;
    rewrite ?lookup_insert_eq, ?(lookup_insert_ne _ "user_correlation_id" "correlation_id"),
      ?(lookup_insert_ne _ "correlation_id" "user_correlation_id"),
      ?lookup_insert_eq by discriminate; auto.
Qed.

Lemma carries_insert (h : HeaderT) (fields : Fields) (k : string) (v : FieldValue) :
  k <> "correlation_id" -> k <> "user_correlation_id" ->
  carries_correlation_ids g h fields ->
  carries_correlation_ids g h (<[k := v]> fields).
Proof.
  intros H1 H2 [Hc Hu]. split; rewrite lookup_insert_ne by congruence; assumption.
Qed.

Lemma access_carries (r : Request) (start now s : Z) (err : option string) :
  carries_correlation_ids g (Header r) (access rg g r start now s err).
Proof.
  unfold access, WithFields.
  assert (Hset : forall fields : Fields,
    fields !! "correlation_id" = None -> fields !! "user_correlation_id" = None ->
    carries_correlation_ids g (Header r)
      (let fields' := setCorrelationIds g fields (Header r) in
       if (0 <? size (foldl (keep_cookie g) ∅ (Cookies r)))%nat
       then <["cookies" := FCookies (foldl (keep_cookie g) ∅ (Cookies r))]> fields'
       else fields')).
  { intros fields H1 H2. cbv zeta.
    destruct (0 <? size (foldl (keep_cookie g) ∅ (Cookies r)))%nat;
      [apply carries_insert; [discriminate..|]|]; now apply setCorrelationIds_carries. }
  destruct (negb (s =? 0)%Z), err as [e|]; apply Hset;
    rewrite ?lookup_insert_ne by discriminate; apply lookup_empty.
Qed.

Lemma Call_carries (r : Request) (resp : option Response) (start now : Z)
  (err : option string) :
  Forall (fun ev => carries_correlation_ids g (Header r) (ev_fields ev))
    (Call rg g r resp start now err).
Proof.
  assert (Hbase : carries_correlation_ids g (Header r)
    (setCorrelationIds g
      (<["type" := FStr "call"]>
      (<["@timestamp" := FTime start]>
      (<["host" := FStr (Host r)]>
      (<["url" := FStr (buildFullPath rg g r)]>
      (<["full_url" := FStr (buildFullUrl rg g r)]>
      (<["method" := FStr (Method r)]>
      (<["duration" := FInt (duration_ms start now)]> ∅)))))))
      (Header r))).
  { apply setCorrelationIds_carries;
      rewrite ?lookup_insert_ne by discriminate; apply lookup_empty. }
  unfold Call, WithFields. destruct err as [e|]; [|destruct resp as [rp|]].
  - apply Forall_singleton. cbn [ev_fields].
    apply carries_insert; [discriminate..|exact Hbase].
  - destruct ((200 <=? StatusCode rp)%Z && (StatusCode rp <=? 399)%Z);
      [|destruct ((400 <=? StatusCode rp)%Z && (StatusCode rp <=? 499)%Z)];
      apply Forall_singleton; cbn [ev_fields];
      (apply carries_insert; [discriminate..|]);
      (apply carries_insert; [discriminate..|exact Hbase]).
  - apply Forall_singleton. exact Hbase.
Qed.

Lemma Application_carries (h : HeaderT) :
  carries_correlation_ids g h (Application g h).
Proof.
  unfold Application, WithFields. apply setCorrelationIds_carries;
    rewrite ?lookup_insert_ne by discriminate; apply lookup_empty.
Qed.

End Correlation.

(** C9: every event built from a request, by [Access], [AccessError]
    or [Call], and every entry [Application] returns for the headers,
    has the field correlation_id equal to the value of the request
    correlation header when that value is not empty and has no such field
    when it is empty or unset; likewise user_correlation_id and the user
    correlation header. *)
Theorem correlation_ids_copied (rg : MapRange) (g : Globals) (r : Request)
  (resp : option Response) (start now s : Z) (err : option string) (msg : string) :
  Forall (fun ev => carries_correlation_ids g (Header r) (ev_fields ev))
    (Access rg g r start now s ++ AccessError rg g r start now msg
     ++ Call rg g r resp start now err)
  /\ carries_correlation_ids g (Header r) (Application g (Header r)).
Proof.
  split; [|apply Application_carries].
  rewrite Access_event. unfold AccessError, Entry_Error, Entry_Log.
  repeat (apply Forall_cons; split); cbn [ev_fields app];
    try apply access_carries.
  apply Call_carries.
Qed.

(** ** The cookie blacklist *)

Section Cookies.
Variable rg : MapRange.
Variable g : Globals.

Lemma keep_cookie_lookup (cs : list Cookie) :
  forall (m : gmap string string) (name : string),
    foldl (keep_cookie g) m cs !! name
    = if contains (AccessLogCookiesBlacklist g) name then m !! name
      else match last_cookie cs name with
           | Some v => Some v
           | None => m !! name
           end.
Proof.
  induction cs as [|c cs IH]; intros m name.
  - simpl. destruct (contains _ name); reflexivity.
  - cbn [foldl last_cookie]. rewrite IH. unfold keep_cookie.
    destruct (contains (AccessLogCookiesBlacklist g) name) eqn:Hbl.
    + destruct (contains (AccessLogCookiesBlacklist g) (Name c)) eqn:Hc; cbn [negb];
        [reflexivity|].
      apply lookup_insert_ne. intros He. rewrite He in Hc. congruence.
    + destruct (last_cookie cs name); [reflexivity|].
      destruct (decide (Name c = name)) as [<-|Hne].
      * rewrite Hbl. cbn [negb]. apply lookup_insert_eq.
      * destruct (contains (AccessLogCookiesBlacklist g) (Name c)); cbn [negb];
          [reflexivity|]. now apply lookup_insert_ne.
Qed.

Lemma kept_cookies_lookup (r : Request) (name : string) :
  kept_cookies g r !! name
  = if contains (AccessLogCookiesBlacklist g) name then None
    else last_cookie (Cookies r) name.
Proof.
  unfold kept_cookies. rewrite keep_cookie_lookup, lookup_empty.
  destruct (contains _ name); [reflexivity|].
  destruct (last_cookie (Cookies r) name); reflexivity.
Qed.

Lemma last_cookie_None (cs : list Cookie) (name : string) :
  last_cookie cs name = None <-> forall c, c ∈ cs -> Name c <> name.
Proof.
  induction cs as [|c cs IH]; cbn [last_cookie].
  - split; [|reflexivity]. intros _ c Hc. now apply not_elem_of_nil in Hc.
  - destruct (last_cookie cs name) as [v|].
    + split; [discriminate|]. intros H. exfalso.
      destruct IH as [_ IH]. discriminate IH. intros c' Hc'. apply H. now right.
    + destruct IH as [IH _]. specialize (IH eq_refl).
      destruct (decide (Name c = name)) as [He|Hne].
      * split; [discriminate|]. intros H. exfalso. apply (H c); [left|exact He].
      * split; [|reflexivity]. intros _ c' Hc'.
        apply elem_of_cons in Hc' as [->|Hc']; [exact Hne | now apply IH].
Qed.

Lemma last_cookie_unique (cs : list Cookie) (c : Cookie) :
  NoDup (Name <$> cs) -> c ∈ cs -> last_cookie cs (Name c) = Some (Value c).
Proof.
  induction cs as [|c0 cs IH]; intros Hnd Hc; [now apply not_elem_of_nil in Hc|].
  rewrite fmap_cons in Hnd. apply NoDup_cons in Hnd as [Hc0 Hnd]. cbn [last_cookie].
  apply elem_of_cons in Hc as [->|Hc].
  - assert (Hn : last_cookie cs (Name c0) = None).
    { apply last_cookie_None. intros c' Hc' He. apply Hc0.
      rewrite <- He. apply list_elem_of_fmap. eauto. }
    rewrite Hn, decide_True by reflexivity. reflexivity.
  - now rewrite (IH Hnd Hc).
Qed.

Lemma kept_cookies_empty (r : Request) :
  kept_cookies g r = ∅
  <-> forall c, c ∈ Cookies r -> contains (AccessLogCookiesBlacklist g) (Name c) = true.
Proof.
  split.
  - intros He c Hc.
    destruct (contains (AccessLogCookiesBlacklist g) (Name c)) eqn:Hbl; [reflexivity|].
    exfalso. assert (Hk := kept_cookies_lookup r (Name c)).
    rewrite He, lookup_empty, Hbl in Hk. symmetry in Hk.
    exact (proj1 (last_cookie_None _ _) Hk c Hc eq_refl).
  - intros H. apply map_eq. intros name. rewrite kept_cookies_lookup, lookup_empty.
    destruct (contains (AccessLogCookiesBlacklist g) name) eqn:Hbl; [reflexivity|].
    apply last_cookie_None. intros c Hc He. specialize (H c Hc). congruence.
Qed.

Lemma access_cookies (r : Request) (start now s : Z) (err : option string) :
  access rg g r start now s err !! "cookies"
  = if decide (kept_cookies g r = ∅) then None else Some (FCookies (kept_cookies g r)).
Proof.
  unfold access, WithFields. fold (kept_cookies g r).
  assert (Hsize : (0 <? size (kept_cookies g r))%nat
                  = if decide (kept_cookies g r = ∅) then false else true).
  { case_decide as He.
    - rewrite He, map_size_empty. reflexivity.
    - apply Nat.ltb_lt. rewrite <- map_size_empty_iff in He. lia. }
  rewrite Hsize. case_decide; [|apply lookup_insert_eq].
  rewrite setCorrelationIds_other by discriminate.
  destruct (negb (s =? 0)%Z), err as [e|];
    rewrite ?lookup_insert_ne by discriminate; apply lookup_empty.
Qed.

End Cookies.

(** C4, as the code has it: the cookies field of the access event is
    omitted exactly when every cookie of the request is blacklisted;
    otherwise it holds the map of kept cookies, which has no entry for a
    blacklisted name and, for every other name, the value of the last
    cookie of the request that bears the name. A cookie whose name occurs
    once on the request therefore appears with its own value. *)
Theorem cookies_logged (rg : MapRange) (g : Globals) (r : Request)
  (start now s : Z) (err : option string) :
  let blacklisted := contains (AccessLogCookiesBlacklist g) in
  let kept := kept_cookies g r in
  access rg g r start now s err !! "cookies"
    = (if decide (kept = ∅) then None else Some (FCookies kept))
  /\ (kept = ∅ <-> forall c, c ∈ Cookies r -> blacklisted (Name c) = true)
  /\ (forall name, blacklisted name = true -> kept !! name = None)
  /\ (forall name, blacklisted name = false -> kept !! name = last_cookie (Cookies r) name)
  /\ (NoDup (Name <$> Cookies r) ->
      forall c, c ∈ Cookies r -> blacklisted (Name c) = false ->
                kept !! Name c = Some (Value c)).
Proof.
  cbv zeta. split; [apply access_cookies|]. split; [apply kept_cookies_empty|].
  split; [|split].
  - intros name H. now rewrite kept_cookies_lookup, H.
  - intros name H. now rewrite kept_cookies_lookup, H.
  - intros Hnd c Hc H. rewrite kept_cookies_lookup, H. now apply last_cookie_unique.
Qed.

(** C4 as stated fails when two cookies of the request bear the same
    name: the cookie foo=1 is on the request and is not blacklisted, yet
    the entry for foo holds the value of the later cookie foo=2. *)
Lemma cookies_logged_counterexample :
  let r := request "/foo" ""
             [ {| Name := "foo"; Value := "1" |}; {| Name := "foo"; Value := "2" |} ] in
  let c := {| Name := "foo"; Value := "1" |} in
  c ∈ Cookies r
  /\ contains (AccessLogCookiesBlacklist globals) (Name c) = false
  /\ exists kept,
       access range_canonical globals r 0 0 200 None !! "cookies" = Some (FCookies kept)
       /\ kept !! Name c = Some "2"
       /\ kept !! Name c <> Some (Value c).
Proof.
  cbv zeta. split; [left|]. split; [reflexivity|].
  eexists. split; [vm_compute; reflexivity|]. split; [reflexivity | discriminate].
Qed.

(** ** The middleware *)

Section MiddlewareFacts.
Variable rg : MapRange.
Variable g : Globals.
Variable EnsureCorrelationId : Request -> Request.

(** The wrapper's status code after a run of calls is the argument of
    the last [WriteHeader] among them, or what it was before. *)
Lemma lrw_statusCode (cs : list WriterCall) :
  forall lrw,
    statusCode (foldl lrw_call lrw cs) = default (statusCode lrw) (last_WriteHeader cs).
Proof.
  unfold last_WriteHeader, WriteHeader_codes.
  induction cs as [|c cs IH]; intros lrw; [reflexivity|].
  cbn [foldl]. rewrite IH. destruct c as [code|b]; cbn [omap list_omap lrw_call].
  - cbn [lrw_WriteHeader statusCode]. rewrite last_cons.
    destruct (last _); reflexivity.
  - reflexivity.
Qed.

(** The wrapper hands every call on to the writer it wraps. *)
Lemma lrw_ResponseWriter (cs : list WriterCall) :
  forall lrw, ResponseWriter (foldl lrw_call lrw cs) = ResponseWriter lrw ++ cs.
Proof.
  induction cs as [|c cs IH]; intros lrw; cbn [foldl]; [now rewrite app_nil_r|].
  rewrite IH. destruct c; cbn [lrw_call lrw_WriteHeader lrw_Write ResponseWriter];
    now rewrite <- app_assoc.
Qed.

Lemma ServeHTTP_Returned (mw : LogMiddleware) (w : ResponseWriterT) (r : Request)
  (start now : Z) :
  completion (Next mw (EnsureCorrelationId r)) = Returned ->
  ServeHTTP rg g EnsureCorrelationId mw w r start now
  = {| logged := Access rg g (EnsureCorrelationId r) start now
                   (default 200%Z
                      (last_WriteHeader (calls (Next mw (EnsureCorrelationId r)))));
       writer := w ++ calls (Next mw (EnsureCorrelationId r));
       unwinding := None |}.
Proof.
  intros H. unfold ServeHTTP, ServeHTTP_body, ServeHTTP_deferred. rewrite H.
  cbn [recover]. rewrite lrw_statusCode, lrw_ResponseWriter, app_nil_r. reflexivity.
Qed.

Lemma ServeHTTP_Panicked (mw : LogMiddleware) (w : ResponseWriterT) (r : Request)
  (start now : Z) (rec : PanicValue) (stack : list Frame) :
  completion (Next mw (EnsureCorrelationId r)) = Panicked rec stack ->
  ServeHTTP rg g EnsureCorrelationId mw w r start now
  = {| logged := AccessError rg g (EnsureCorrelationId r) start now (panic_text rec stack);
       writer :=
         if negb (panicCode mw =? 0)%Z
         then (w ++ calls (Next mw (EnsureCorrelationId r)))
              ++ [CallWriteHeader (panicCode mw)]
         else w ++ calls (Next mw (EnsureCorrelationId r));
       unwinding := None |}.
Proof.
  intros H. unfold ServeHTTP, ServeHTTP_body, ServeHTTP_deferred. rewrite H.
  cbn [recover]. rewrite lrw_ResponseWriter. reflexivity.
Qed.

(** No panic leaves [ServeHTTP], so the server goes on to the next
    request. *)
Lemma ServeHTTP_unwinding (mw : LogMiddleware) (w : ResponseWriterT) (r : Request)
  (start now : Z) :
  unwinding (ServeHTTP rg g EnsureCorrelationId mw w r start now) = None.
Proof.
  destruct (completion (Next mw (EnsureCorrelationId r))) as [|rec stack] eqn:H.
  - now rewrite ServeHTTP_Returned.
  - now rewrite (ServeHTTP_Panicked mw w r start now rec stack).
Qed.

Lemma serve_cons (mw : LogMiddleware) (r : Request) (w : ResponseWriterT) (start now : Z)
  (rest : list (Request * ResponseWriterT * Z * Z)) :
  serve rg g EnsureCorrelationId mw ((r, w, start, now) :: rest)
  = ServeHTTP rg g EnsureCorrelationId mw w r start now
    :: serve rg g EnsureCorrelationId mw rest.
Proof. cbn [serve]. now rewrite ServeHTTP_unwinding. Qed.

Lemma access_error_fields (r : Request) (start now : Z) (err : string) :
  access rg g r start now 0 (Some err) !! ErrorKey = Some (FStr err)
  /\ access rg g r start now 0 (Some err) !! "type" = Some (FStr "access")
  /\ access rg g r start now 0 (Some err) !! "response_status" = None.
Proof.
  unfold access, WithFields, ErrorKey. cbn [Z.eqb negb].
  destruct (0 <? size (foldl (keep_cookie g) ∅ (Cookies r)))%nat;
    repeat split;
    repeat first [ rewrite lookup_insert_eq
                 | rewrite lookup_insert_ne by discriminate
                 | rewrite setCorrelationIds_other by discriminate
                 | rewrite lookup_empty ];
    reflexivity.
Qed.

End MiddlewareFacts.

(** C6, as the code has it: the status code the wrapper records, which
    is the one [ServeHTTP] passes to [Access] when the handler returns,
    is 200 if the handler never calls [WriteHeader] and otherwise the
    argument of the last [WriteHeader] call it makes: every call
    overwrites the recorded value. *)
Theorem status_recorded (rg : MapRange) (g : Globals)
  (EnsureCorrelationId : Request -> Request)
  (mw : LogMiddleware) (w : ResponseWriterT) (r : Request) (start now : Z) :
  let run := Next mw (EnsureCorrelationId r) in
  let recorded := default 200%Z (last_WriteHeader (calls run)) in
  statusCode (foldl lrw_call {| ResponseWriter := w; statusCode := 200 |} (calls run))
    = recorded
  /\ (first_WriteHeader (calls run) = None -> recorded = 200%Z)
  /\ (completion run = Returned ->
      logged (ServeHTTP rg g EnsureCorrelationId mw w r start now)
      = Access rg g (EnsureCorrelationId r) start now recorded).
Proof.
  cbv zeta. split; [apply lrw_statusCode|]. split.
  - unfold first_WriteHeader, last_WriteHeader.
    destruct (WriteHeader_codes _); [reflexivity | discriminate].
  - intros H. now rewrite ServeHTTP_Returned.
Qed.

(** C6 as stated fails for a handler that calls [WriteHeader] twice:
    the first call passes 404, the wrapper records 500, the argument of
    the second call, and the access event reports 500. *)
Lemma status_recorded_counterexample :
  let mw := NewLogMiddleware two_codes [] in
  let served := ServeHTTP range_canonical globals id mw [] foo_q_bar 0 0 in
  first_WriteHeader (calls (Next mw foo_q_bar)) = Some 404%Z
  /\ statusCode (foldl lrw_call {| ResponseWriter := []; statusCode := 200 |}
                  (calls (Next mw foo_q_bar))) = 500%Z
  /\ (fun ev => (ev_fields ev !! "response_status", ev_level ev)) <$> logged served
     = [(Some (FInt 500), ErrorLevel)].
Proof. cbv zeta. repeat split; vm_compute; reflexivity. Qed.

(** C5, as the code has it: when the wrapped handler panics with a
    value [v], no panic leaves [ServeHTTP]; exactly one event is logged,
    the access-error event, and no access event; its severity is error,
    its message is "ERROR -><method> <path>", its error field holds
    "PANIC (<origin>): v" and it has no response_status; the server then
    handles the requests that follow as usual. *)
Theorem panic_recovered (rg : MapRange) (g : Globals)
  (EnsureCorrelationId : Request -> Request)
  (mw : LogMiddleware) (w : ResponseWriterT) (r : Request) (start now : Z)
  (v : PanicValue) (stack : list Frame)
  (rest : list (Request * ResponseWriterT * Z * Z)) :
  completion (Next mw (EnsureCorrelationId r)) = Panicked v stack ->
  let served := ServeHTTP rg g EnsureCorrelationId mw w r start now in
  unwinding served = None
  /\ (exists ev,
        logged served = [ev]
        /\ ev_level ev = ErrorLevel
        /\ ev_message ev
           = "ERROR ->" +:+ Method (EnsureCorrelationId r) +:+ " "
             +:+ Path (URL (EnsureCorrelationId r))
        /\ ev_fields ev !! ErrorKey
           = Some (FStr ("PANIC (" +:+ identifyLogOrigin stack +:+ "): " +:+ fmt_v v))
        /\ ev_fields ev !! "type" = Some (FStr "access")
        /\ ev_fields ev !! "response_status" = None)
  /\ serve rg g EnsureCorrelationId mw ((r, w, start, now) :: rest)
     = served :: serve rg g EnsureCorrelationId mw rest
  /\ (forall r' w' start' now',
        completion (Next mw (EnsureCorrelationId r')) = Returned ->
        serve rg g EnsureCorrelationId mw [(r, w, start, now); (r', w', start', now')]
        = [served;
           {| logged := Access rg g (EnsureCorrelationId r') start' now'
                          (default 200%Z
                             (last_WriteHeader (calls (Next mw (EnsureCorrelationId r')))));
              writer := w' ++ calls (Next mw (EnsureCorrelationId r'));
              unwinding := None |}]).
Proof.
  intros H. cbv zeta. split; [apply ServeHTTP_unwinding|]. split; [|split].
  - rewrite (ServeHTTP_Panicked rg g EnsureCorrelationId mw w r start now v stack H).
    cbn [logged]. unfold AccessError, Entry_Error, Entry_Log. eexists.
    split; [reflexivity|]. cbn [ev_level ev_message ev_fields].
    split; [reflexivity|]. split; [reflexivity|]. apply access_error_fields.
  - apply serve_cons.
  - intros r' w' start' now' H'. rewrite !serve_cons. cbn [serve].
    now rewrite (ServeHTTP_Returned rg g EnsureCorrelationId mw w' r' start' now' H').
Qed.

(** The handler [booming] panics on /boom and returns on /foo. *)
Lemma panic_recovered_witness :
  let mw := NewLogMiddleware booming [WithPanicStatus 500] in
  let r := request "/boom" "" [] in
  let served := ServeHTTP range_canonical globals id mw [] r 0 0 in
  completion (Next mw r) = Panicked (PanicString "boom") [runtime_frame; main_frame]
  /\ unwinding served = None
  /\ ev_message <$> logged served = ["ERROR ->GET /boom"]
  /\ (fun ev => ev_fields ev !! ErrorKey) <$> logged served
     = [Some (FStr "PANIC (main.handler:12): boom")]
  /\ length (serve range_canonical globals id mw
               [(r, [], 0%Z, 0%Z); (foo_q_bar, [], 0%Z, 0%Z)])
     = 2%nat.
Proof.
  cbv zeta.
  pose proof (panic_recovered range_canonical globals id
                (NewLogMiddleware booming [WithPanicStatus 500]) []
                (request "/boom" "" []) 0 0 (PanicString "boom")
                [runtime_frame; main_frame] [(foo_q_bar, [], 0%Z, 0%Z)] eq_refl) as H.
  cbv zeta in H. destruct H as (Hu & _ & Hs & _).
  split; [reflexivity|]. split; [exact Hu|].
  split; [vm_compute; reflexivity|]. split; [vm_compute; reflexivity|].
  rewrite Hs. reflexivity.
Defined.

(** C5 as stated fails on the message: for a handler that panics with
    "boom", the message of the one event that is logged is
    "ERROR ->GET /boom", which is not "PANIC (<origin>): boom" for any
    origin; that text is the value of the event's error field. *)
Lemma panic_recovered_counterexample :
  let mw := NewLogMiddleware booming [] in
  let r := request "/boom" "" [] in
  completion (Next mw r) = Panicked (PanicString "boom") [runtime_frame; main_frame]
  /\ ev_message <$> logged (ServeHTTP range_canonical globals id mw [] r 0 0)
     = ["ERROR ->GET /boom"]
  /\ ~ exists origin, "ERROR ->GET /boom" = "PANIC (" +:+ origin +:+ "): boom".
Proof.
  cbv zeta. split; [reflexivity|]. split; [vm_compute; reflexivity|].
  intros [origin H]. discriminate H.
Qed.

(** ** Anonymized query parameters *)

Section Redaction.
Variable rg : MapRange.
Variable g : Globals.

Lemma buildFullPath_logged_query (r : Request) :
  buildFullPath rg g r = Path (URL r) +:+ logged_query g r.
Proof.
  rewrite buildFullPath_pairs. unfold logged_query.
  destruct (logged_pairs g r); [now rewrite append_nil_r | reflexivity].
Qed.

Lemma buildFullUrl_origin (r : Request) :
  buildFullUrl rg g r = url_origin r +:+ buildFullPath rg g r.
Proof.
  unfold buildFullUrl, url_origin.
  destruct (negb (String.eqb (Port (URL r)) "")); now rewrite !append_assoc.
Qed.

Lemma access_url (r : Request) (start now s : Z) (err : option string) :
  access rg g r start now s err !! "url" = Some (FStr (buildFullPath rg g r)).
Proof.
  unfold access, WithFields, ErrorKey.
  destruct (0 <? size (foldl (keep_cookie g) ∅ (Cookies r)))%nat,
    (negb (s =? 0)%Z), err as [e|];
    repeat first [ rewrite lookup_insert_eq
                 | rewrite lookup_insert_ne by discriminate
                 | rewrite setCorrelationIds_other by discriminate ];
    reflexivity.
Qed.

Lemma Call_urls (r : Request) (resp : option Response) (start now : Z)
  (err : option string) :
  Forall (fun ev =>
            ev_fields ev !! "url" = Some (FStr (buildFullPath rg g r))
            /\ ev_fields ev !! "full_url" = Some (FStr (buildFullUrl rg g r)))
    (Call rg g r resp start now err).
Proof.
  unfold Call, WithFields, ErrorKey. destruct err as [e|]; [|destruct resp as [rp|]];
    [| destruct ((200 <=? StatusCode rp)%Z && (StatusCode rp <=? 399)%Z);
       [|destruct ((400 <=? StatusCode rp)%Z && (StatusCode rp <=? 499)%Z)] |];
    apply Forall_singleton; cbn [ev_fields]; split;
    repeat first [ rewrite lookup_insert_eq
                 | rewrite lookup_insert_ne by discriminate
                 | rewrite setCorrelationIds_other by discriminate ];
    reflexivity.
Qed.

End Redaction.

(** C3: in the url field of an access event and in the url and full_url
    fields of a call event, the text after the path is made of the pairs
    [key=value] of the request's query parameters, names and values
    being those [URL.Query] returns; for a parameter whose name is in
    the anonymized set the only pair is [key=*****], for any other
    parameter the pairs are its values, unchanged and in their order,
    and a name that is not a parameter of the request has no pair. The
    strings do not depend on the order in which the maps are traversed,
    so that repeated builds yield the same string. *)
Theorem query_values_masked (rg : MapRange) (g : Globals) (r : Request)
  (resp : option Response) (start now s : Z) (err : option string) :
  let url := Path (URL r) +:+ logged_query g r in
  access rg g r start now s err !! "url" = Some (FStr url)
  /\ Forall (fun ev =>
               ev_fields ev !! "url" = Some (FStr url)
               /\ ev_fields ev !! "full_url" = Some (FStr (url_origin r +:+ url)))
       (Call rg g r resp start now err)
  /\ (forall k value,
        Query (URL r) !! k = Some value ->
        filter (fun p => p.1 = k) (logged_pairs g r)
        = if contains (AnonymizedQueryParams g) k
          then [(k, "*****")]
          else (fun x => (k, x)) <$> value)
  /\ (forall k, Query (URL r) !! k = None ->
                filter (fun p => p.1 = k) (logged_pairs g r) = [])
  /\ (forall rg' : MapRange,
        buildFullPath rg' g r = buildFullPath rg g r
        /\ buildFullUrl rg' g r = buildFullUrl rg g r).
Proof.
  cbv zeta. rewrite <- (buildFullPath_logged_query rg g r).
  split; [apply access_url|]. split; [|split; [|split]].
  - rewrite <- buildFullUrl_origin. apply Call_urls.
  - intros k value Hk. rewrite (logged_pairs_key g r k value Hk).
    unfold redact_values. destruct (contains _ k); reflexivity.
  - intros k Hk. now apply logged_pairs_absent.
  - intros rg'. rewrite !buildFullUrl_origin, !buildFullPath_logged_query. split; reflexivity.
Qed.

(** C10: when a parameter occurs with several values, [buildFullPath]
    writes the path, [?] and the pairs joined with [&]; if the
    parameter's name is anonymized its pairs collapse to the single pair
    [key=*****], otherwise there is one pair for each of its values, in
    their order. *)
Theorem multi_valued_parameter (rg : MapRange) (g : Globals) (r : Request)
  (k v1 v2 : string) (vs : list string) :
  Query (URL r) !! k = Some (v1 :: v2 :: vs) ->
  buildFullPath rg g r
    = Path (URL r) +:+ "?" +:+ Join (show_pair <$> logged_pairs g r) "&"
  /\ (contains (AnonymizedQueryParams g) k = true ->
      filter (fun p => p.1 = k) (logged_pairs g r) = [(k, "*****")])
  /\ (contains (AnonymizedQueryParams g) k = false ->
      filter (fun p => p.1 = k) (logged_pairs g r)
      = (k, v1) :: (k, v2) :: ((fun x => (k, x)) <$> vs)).
Proof.
  intros Hk. pose proof (logged_pairs_key g r k _ Hk) as Hf. split; [|split].
  - rewrite buildFullPath_pairs. destruct (logged_pairs g r); [|reflexivity].
    unfold redact_values in Hf. destruct (contains _ k); discriminate Hf.
  - intros Ha. rewrite Hf. unfold redact_values. now rewrite Ha.
  - intros Ha. rewrite Hf. unfold redact_values. now rewrite Ha.
Qed.

(** In [/search?q=a&p=1&q=b&p=2] with [q] anonymized, [q] is written
    once and [p] twice. *)
Lemma multi_valued_parameter_witness :
  let g := anonymizing ["q"] in
  let r := request "/search" "q=a&p=1&q=b&p=2" [] in
  Query (URL r) !! "q" = Some ["a"; "b"]
  /\ Query (URL r) !! "p" = Some ["1"; "2"]
  /\ buildFullPath range_canonical g r = "/search?p=1&p=2&q=*****"
  /\ filter (fun p => p.1 = "q") (logged_pairs g r) = [("q", "*****")]
  /\ filter (fun p => p.1 = "p") (logged_pairs g r) = [("p", "1"); ("p", "2")].
Proof.
  cbv zeta.
  assert (Hq : Query (URL (request "/search" "q=a&p=1&q=b&p=2" [])) !! "q"
               = Some ["a"; "b"]) by (vm_compute; reflexivity).
  assert (Hp : Query (URL (request "/search" "q=a&p=1&q=b&p=2" [])) !! "p"
               = Some ["1"; "2"]) by (vm_compute; reflexivity).
  destruct (multi_valued_parameter range_canonical (anonymizing ["q"]) _ _ _ _ _ Hq)
    as (_ & Hmask & _).
  destruct (multi_valued_parameter range_canonical (anonymizing ["q"]) _ _ _ _ _ Hp)
    as (_ & _ & Hkeep).
  split; [exact Hq|]. split; [exact Hp|]. split; [vm_compute; reflexivity|].
  split; [apply Hmask; reflexivity | apply Hkeep; reflexivity].
Defined.

(** ** ParseQuery on well-formed queries *)

Section Parsing.

Lemma ContainsByte_app (a b : string) (c : ascii) :
  ContainsByte (a +:+ b) c = ContainsByte a c || ContainsByte b c.
Proof.
  induction a as [|x a IH]; [reflexivity|].
  rewrite append_cons. cbn [ContainsByte]. rewrite IH. now rewrite orb_assoc.
Qed.

Lemma Cut_found (a b : string) (sep : ascii) :
  ContainsByte a sep = false -> Cut (a +:+ String sep b) sep = (a, b, true).
Proof.
  induction a as [|x a IH]; intros H.
  - rewrite append_nil_l. cbn [Cut]. now rewrite Ascii.eqb_refl.
  - cbn [ContainsByte] in H. apply orb_false_elim in H as [Hx Ha].
    rewrite append_cons. cbn [Cut]. rewrite Hx, (IH Ha). reflexivity.
Qed.

Lemma Cut_not_found (a : string) (sep : ascii) :
  ContainsByte a sep = false -> Cut a sep = (a, "", false).
Proof.
  induction a as [|x a IH]; intros H; [reflexivity|].
  cbn [ContainsByte] in H. apply orb_false_elim in H as [Hx Ha].
  cbn [Cut]. rewrite Hx, (IH Ha). reflexivity.
Qed.

(** Each turn of the loop of [parseQuery] shortens the query. *)
Lemma Cut_shorter (s : string) (sep : ascii) :
  s <> "" -> (String.length (Cut s sep).1.2 < String.length s)%nat.
Proof.
  induction s as [|x s IH]; intros H; [congruence|].
  cbn [Cut]. destruct (Ascii.eqb x sep); [simpl; lia|].
  destruct s as [|y s]; [simpl; lia|].
  specialize (IH ltac:(discriminate)).
  destruct (Cut (String y s) sep) as [[before after] found]. simpl in *. lia.
Qed.

(** The loop of [parseQuery] ends before its fuel does: any fuel from
    the length of the query on gives the same map. *)
Lemma parseQuery_loop_fuel (fuel1 : nat) :
  forall (fuel2 : nat) (m : Values) (query : string),
    (String.length query <= fuel1)%nat -> (String.length query <= fuel2)%nat ->
    parseQuery_loop fuel1 m query = parseQuery_loop fuel2 m query.
Proof.
  induction fuel1 as [|fuel1 IH]; intros fuel2 m query H1 H2.
  - destruct query; [|simpl in H1; lia]. destruct fuel2; reflexivity.
  - destruct query as [|x q]; [destruct fuel2; reflexivity|].
    destruct fuel2 as [|fuel2]; [simpl in H2; lia|].
    cbn [parseQuery_loop String.eqb].
    pose proof (Cut_shorter (String x q) "&" ltac:(discriminate)) as Hlt.
    destruct (Cut (String x q) "&") as [[key query'] found]. cbn [fst snd] in Hlt.
    apply IH; simpl in *; lia.
Qed.

Lemma unescape_scan_plain (s : string) :
  forall n p,
    ContainsByte s "%" = false -> ContainsByte s "+" = false ->
    unescape_scan s n p = Some (n, p).
Proof.
  induction s as [|x s IH]; intros n p H1 H2; [reflexivity|].
  cbn [ContainsByte] in H1, H2.
  apply orb_false_elim in H1 as [Hx1 Hs1]. apply orb_false_elim in H2 as [Hx2 Hs2].
  cbn [unescape_scan]. rewrite Hx1, Hx2. now apply IH.
Qed.

Lemma plain_value_spec (s : string) :
  plain_value s = true
  <-> ContainsByte s "%" = false /\ ContainsByte s "+" = false
      /\ ContainsByte s ";" = false /\ ContainsByte s "&" = false.
Proof. unfold plain_value. rewrite !andb_true_iff, !negb_true_iff. tauto. Qed.

Lemma plain_key_spec (s : string) :
  plain_key s = true <-> plain_value s = true /\ ContainsByte s "=" = false.
Proof. unfold plain_key. rewrite andb_true_iff, negb_true_iff. tauto. Qed.

Lemma QueryUnescape_plain (s : string) :
  plain_value s = true -> QueryUnescape s = Some s.
Proof.
  intros H. apply plain_value_spec in H as (H1 & H2 & _). unfold QueryUnescape.
  now rewrite (unescape_scan_plain s 0 false H1 H2).
Qed.

Lemma show_pair_nonempty (p : string * string) : show_pair p <> "".
Proof.
  unfold show_pair. intros H. apply (f_equal String.length) in H.
  rewrite !append_length in H. simpl in H. lia.
Qed.

Lemma parseQuery_pair_plain (m : Values) (p : string * string) :
  plain_key p.1 = true -> plain_value p.2 = true ->
  ContainsByte (show_pair p) "&" = false
  /\ parseQuery_pair m (show_pair p) = add_pair m p.
Proof.
  intros Hk Hv. apply plain_key_spec in Hk as [Hkv K5].
  destruct (proj1 (plain_value_spec _) Hkv) as (K1 & K2 & K3 & K4).
  destruct (proj1 (plain_value_spec _) Hv) as (V1 & V2 & V3 & V4).
  split.
  - unfold show_pair. rewrite !ContainsByte_app, K4, V4. reflexivity.
  - unfold parseQuery_pair.
    assert (Hsemi : ContainsByte (show_pair p) ";" = false).
    { unfold show_pair. rewrite !ContainsByte_app, K3, V3. reflexivity. }
    rewrite Hsemi, (eqb_empty_false _ (show_pair_nonempty p)).
    unfold show_pair. rewrite append_cons, append_nil_l, (Cut_found _ _ _ K5).
    now rewrite (QueryUnescape_plain _ Hkv), (QueryUnescape_plain _ Hv).
Qed.

Lemma parseQuery_loop_done (fuel : nat) (m : Values) :
  parseQuery_loop fuel m "" = m.
Proof. destruct fuel; reflexivity. Qed.

(** On a query made of plain pairs, [parseQuery] adds the pairs to the
    map one after the other. *)
Lemma parseQuery_loop_pairs (ps : list (string * string)) :
  forall (m : Values) (fuel : nat),
    Forall (fun p => plain_key p.1 = true /\ plain_value p.2 = true) ps ->
    (String.length (Join (show_pair <$> ps) "&") <= fuel)%nat ->
    parseQuery_loop fuel m (Join (show_pair <$> ps) "&") = foldl add_pair m ps.
Proof.
  induction ps as [|p [|p' ps] IH]; intros m fuel Hps Hfuel.
  - apply parseQuery_loop_done.
  - apply Forall_cons in Hps as [[Hk Hv] _].
    destruct (parseQuery_pair_plain m p Hk Hv) as [Hamp Hpair].
    cbn [fmap list_fmap Join] in *.
    destruct fuel as [|fuel].
    { pose proof (show_pair_nonempty p). destruct (show_pair p); [congruence|simpl in *; lia]. }
    cbn [parseQuery_loop]. rewrite (eqb_empty_false _ (show_pair_nonempty p)).
    rewrite (Cut_not_found _ _ Hamp), Hpair. apply parseQuery_loop_done.
  - apply Forall_cons in Hps as [[Hk Hv] Hps].
    destruct (parseQuery_pair_plain m p Hk Hv) as [Hamp Hpair].
    rewrite !fmap_cons, Join_cons in *. rewrite append_cons, append_nil_l in *.
    destruct fuel as [|fuel].
    { rewrite append_length in Hfuel. simpl in Hfuel. lia. }
    cbn [parseQuery_loop].
    rewrite eqb_empty_false.
    2:{ intros H. apply (f_equal String.length) in H.
        rewrite append_length in H. simpl in H. lia. }
    rewrite (Cut_found _ _ _ Hamp), Hpair. cbn [foldl].
    apply IH; [exact Hps|].
    rewrite append_length in Hfuel. cbn [String.length] in Hfuel. lia.
Qed.

Lemma ParseQuery_pairs (ps : list (string * string)) :
  Forall (fun p => plain_key p.1 = true /\ plain_value p.2 = true) ps ->
  ParseQuery (Join (show_pair <$> ps) "&") = foldl add_pair ∅ ps.
Proof. intros H. unfold ParseQuery. now apply parseQuery_loop_pairs. Qed.

(** The values collected under a key are the values of the pairs that
    bear the key, in their order. *)
Lemma add_pairs_lookup_total (ps : list (string * string)) :
  forall (m : Values) (k : string),
    foldl add_pair m ps !!! k = (m !!! k) ++ (filter (fun p => p.1 = k) ps).*2.
Proof.
  induction ps as [|p ps IH]; intros m k; [now rewrite app_nil_r|].
  cbn [foldl]. rewrite IH. unfold add_pair.
  destruct (decide (p.1 = k)) as [<-|Hne].
  - rewrite lookup_total_insert_eq, filter_cons_True by reflexivity.
    rewrite fmap_cons, <- app_assoc. reflexivity.
  - rewrite lookup_total_insert_ne, filter_cons_False by exact Hne. reflexivity.
Qed.

Lemma add_pairs_is_Some (ps : list (string * string)) :
  forall (m : Values) (k : string),
    is_Some (foldl add_pair m ps !! k) <-> is_Some (m !! k) \/ k ∈ ps.*1.
Proof.
  induction ps as [|p ps IH]; intros m k.
  - cbn [foldl fmap list_fmap]. rewrite elem_of_nil. tauto.
  - cbn [foldl]. rewrite IH, fmap_cons, elem_of_cons. unfold add_pair.
    destruct (decide (p.1 = k)) as [<-|Hne].
    + rewrite lookup_insert_eq. split; [tauto|]. intros _. left. eauto.
    + rewrite lookup_insert_ne by exact Hne. split; [tauto|].
      intros [H|[H|H]]; [tauto | congruence | tauto].
Qed.

End Parsing.

(** ** The round trip through ParseQuery and Encode *)

Section RoundTrip.

Lemma ascending_Sorted (keys : list string) :
  ascending keys = true -> Sorted String.le keys.
Proof.
  induction keys as [|k1 [|k2 keys] IH]; intros H.
  - constructor.
  - repeat constructor.
  - cbn [ascending] in H. apply andb_true_iff in H as [H12 H].
    constructor; [now apply IH|]. constructor. now apply Is_true_true.
Qed.

Lemma ascending_StronglySorted (keys : list string) :
  ascending keys = true -> StronglySorted String.le keys.
Proof.
  intros H. apply Sorted_StronglySorted; [apply _|]. now apply ascending_Sorted.
Qed.

Lemma filter_key_absent (ps : list (string * string)) (k0 : string) :
  Forall (fun p => p.1 <> k0) ps ->
  filter (fun p => p.1 = k0) ps = [] /\ filter (fun p => p.1 <> k0) ps = ps.
Proof.
  induction ps as [|p ps IH]; intros H; [split; reflexivity|].
  apply Forall_cons in H as [Hp H]. destruct (IH H) as [IH1 IH2].
  rewrite filter_cons_False, filter_cons_True by (simpl; tauto).
  now rewrite IH1, IH2.
Qed.

(** In a list sorted by key, the pairs that bear the least key come
    first. *)
Lemma sorted_split (ps : list (string * string)) (k0 : string) :
  StronglySorted String.le ps.*1 ->
  Forall (String.le k0) ps.*1 ->
  ps = filter (fun p => p.1 = k0) ps ++ filter (fun p => p.1 <> k0) ps.
Proof.
  induction ps as [|p ps IH]; intros Hs Hk0; [reflexivity|].
  rewrite fmap_cons in Hs, Hk0.
  apply StronglySorted_inv in Hs as [Hs Hp]. apply Forall_cons in Hk0 as [Hk0p Hk0].
  destruct (decide (p.1 = k0)) as [He|Hne].
  - rewrite filter_cons_True, filter_cons_False by (simpl; tauto).
    cbn [app]. f_equal. now apply IH.
  - rewrite filter_cons_False, filter_cons_True by (simpl; tauto).
    assert (Habs : Forall (fun p' : string * string => p'.1 <> k0) ps).
    { apply Forall_forall. intros p' Hp' He.
      rewrite Forall_forall in Hp. specialize (Hp p'.1).
      assert (Hle : String.le p.1 p'.1).
      { apply Hp. apply list_elem_of_fmap. eauto. }
      rewrite He in Hle. apply Hne. now apply (anti_symm String.le). }
    destruct (filter_key_absent ps k0 Habs) as [-> ->]. reflexivity.
Qed.

Lemma sorted_filter (P : string * string -> Prop) `{forall p, Decision (P p)}
  (ps : list (string * string)) :
  StronglySorted String.le ps.*1 -> StronglySorted String.le (filter P ps).*1.
Proof.
  induction ps as [|p ps IH]; intros Hs; [constructor|].
  rewrite fmap_cons in Hs. apply StronglySorted_inv in Hs as [Hs Hp].
  destruct (decide (P p)) as [HP|HP].
  - rewrite filter_cons_True, fmap_cons by exact HP.
    constructor; [now apply IH|].
    apply Forall_forall. intros k Hk. rewrite Forall_forall in Hp. apply Hp.
    apply list_elem_of_fmap in Hk as [p' [-> Hp']].
    apply list_elem_of_filter in Hp' as [_ Hp']. apply list_elem_of_fmap. eauto.
  - rewrite filter_cons_False by exact HP. now apply IH.
Qed.

(** Visiting the keys in ascending order and, for each key, the pairs
    that bear it, visits the pairs of a list sorted by key in the
    order of the list. *)
Lemma group_by_sorted_keys (keys : list string) :
  forall ps : list (string * string),
    StronglySorted String.le keys -> NoDup keys ->
    (forall k, k ∈ keys <-> k ∈ ps.*1) ->
    StronglySorted String.le ps.*1 ->
    keys ≫= (fun k => filter (fun p => p.1 = k) ps) = ps.
Proof.
  induction keys as [|k0 keys IH]; intros ps Hs Hnd Hdom Hps.
  - destruct ps as [|p ps]; [reflexivity|]. exfalso.
    apply (not_elem_of_nil p.1). apply Hdom. rewrite fmap_cons. left.
  - apply StronglySorted_inv in Hs as [Hs Hk0]. apply NoDup_cons in Hnd as [Hk0n Hnd].
    rewrite bind_cons.
    assert (Hmin : Forall (String.le k0) ps.*1).
    { apply Forall_forall. intros k Hk. apply Hdom in Hk.
      apply elem_of_cons in Hk as [->|Hk]; [reflexivity|].
      rewrite Forall_forall in Hk0. now apply Hk0. }
    etransitivity; [|symmetry; apply (sorted_split ps k0 Hps Hmin)]. f_equal.
    etransitivity; [|apply (IH (filter (fun p => p.1 <> k0) ps))].
    + apply bind_ext_in. intros k Hk.
      rewrite list_filter_filter. apply list_filter_iff. intros p.
      split; [intros <-; split; [reflexivity|] | tauto].
      intros He. apply Hk0n. now rewrite <- He.
    + exact Hs.
    + exact Hnd.
    + intros k. rewrite list_elem_of_fmap. split.
      * intros Hk. assert (Hk' : k ∈ ps.*1) by (apply Hdom; now right).
        apply list_elem_of_fmap in Hk' as [p [-> Hp]]. exists p. split; [reflexivity|].
        apply list_elem_of_filter. split; [|exact Hp].
        intros He. apply Hk0n. now rewrite <- He.
      * intros [p [-> Hp]]. apply list_elem_of_filter in Hp as [Hne Hp].
        assert (Hk : p.1 ∈ k0 :: keys).
        { apply Hdom. apply list_elem_of_fmap. eauto. }
        apply elem_of_cons in Hk as [Hk|Hk]; [congruence | exact Hk].
    + now apply sorted_filter.
Qed.

Lemma pairs_of_key (ps : list (string * string)) (k : string) :
  (fun x => (k, x)) <$> (filter (fun p => p.1 = k) ps).*2 = filter (fun p => p.1 = k) ps.
Proof.
  induction ps as [|[k' v] ps IH]; [reflexivity|].
  destruct (decide (k' = k)) as [->|Hne].
  - rewrite filter_cons_True by reflexivity. rewrite !fmap_cons, IH. reflexivity.
  - rewrite filter_cons_False by (simpl; congruence). exact IH.
Qed.

Lemma canonical_pairs_spec (ps : list (string * string)) :
  canonical_pairs ps = true ->
  Forall (fun p => plain_key p.1 = true /\ plain_value p.2 = true) ps
  /\ StronglySorted String.le ps.*1.
Proof.
  unfold canonical_pairs. rewrite andb_true_iff. intros [Hall Hasc]. split.
  - apply Forall_forall. intros p Hp. rewrite forallb_forall in Hall.
    apply andb_true_iff. apply Hall. now apply list_elem_of_In.
  - now apply ascending_StronglySorted.
Qed.

(** With nothing anonymized, the pairs logged for a canonical query
    are the pairs of the query. *)
Lemma logged_pairs_canonical (g : Globals) (r : Request) (ps : list (string * string)) :
  AnonymizedQueryParams g = [] ->
  canonical_pairs ps = true ->
  RawQuery (URL r) = Join (show_pair <$> ps) "&" ->
  logged_pairs g r = ps.
Proof.
  intros Hanon Hcan Hraw. apply canonical_pairs_spec in Hcan as [Hplain Hsorted].
  unfold logged_pairs, Query. rewrite Hraw, (ParseQuery_pairs ps Hplain).
  etransitivity; [|apply (group_by_sorted_keys (sorted_keys (foldl add_pair ∅ ps)) ps)].
  - apply bind_ext_in. intros k _. unfold redact_values. rewrite Hanon. cbn [contains].
    rewrite add_pairs_lookup_total.
    change ((∅ : Values) !!! k) with (@nil string). rewrite app_nil_l.
    apply pairs_of_key.
  - unfold sorted_keys, SortStrings. apply StronglySorted_merge_sort; apply _.
  - apply NoDup_sorted_keys.
  - intros k. rewrite elem_of_sorted_keys, add_pairs_is_Some, lookup_empty.
    split; [intros [[? ?]|?]; [discriminate | assumption] | tauto].
  - exact Hsorted.
Qed.

End RoundTrip.

(** C2, as the code has it: with an empty anonymized set,
    [buildFullPath] returns the path, [?] and the raw query string,
    byte for byte, for every request whose raw query is a non-empty
    sequence of pairs [key=value] joined by [&] with the keys in
    ascending order, no [%], [+], [;] or [&] in a key or a value and no
    [=] in a key. (Other queries are parsed, sorted by key and written
    again with their escapes decoded.) *)
Theorem buildFullPath_round_trip (rg : MapRange) (g : Globals) (r : Request)
  (ps : list (string * string)) :
  AnonymizedQueryParams g = [] ->
  ps <> [] ->
  canonical_pairs ps = true ->
  RawQuery (URL r) = Join (show_pair <$> ps) "&" ->
  buildFullPath rg g r = Path (URL r) +:+ "?" +:+ RawQuery (URL r).
Proof.
  intros Hanon Hne Hcan Hraw.
  rewrite buildFullPath_pairs, (logged_pairs_canonical g r ps Hanon Hcan Hraw), Hraw.
  destruct ps; [congruence | reflexivity].
Qed.

(** The request of the tests, [/foo?q=bar], and a longer query. *)
Lemma buildFullPath_round_trip_witness :
  buildFullPath range_canonical globals foo_q_bar = "/foo?q=bar"
  /\ buildFullPath range_reversed globals
       (request "/a/b" "=x&a=1&a=/2=&b.c=~d e&z=" []) = "/a/b?=x&a=1&a=/2=&b.c=~d e&z=".
Proof.
  split.
  - apply (buildFullPath_round_trip range_canonical globals foo_q_bar [("q", "bar")]);
      [reflexivity | discriminate | reflexivity | reflexivity].
  - apply (buildFullPath_round_trip range_reversed globals
             (request "/a/b" "=x&a=1&a=/2=&b.c=~d e&z=" [])
             [("", "x"); ("a", "1"); ("a", "/2="); ("b.c", "~d e"); ("z", "")]);
      [reflexivity | discriminate | reflexivity | reflexivity].
Defined.

(** C2 as stated fails: the parameters are written in the order of
    their names, not in their original order; percent-escapes and [+]
    are decoded; a parameter without [=] gets one; and a pair with a
    malformed escape is dropped. *)
Lemma buildFullPath_round_trip_counterexample :
  AnonymizedQueryParams globals = []
  /\ buildFullPath range_canonical globals (request "/foo" "b=1&a=2" []) = "/foo?a=2&b=1"
  /\ buildFullPath range_canonical globals (request "/foo" "q=a%20b+c" []) = "/foo?q=a b c"
  /\ buildFullPath range_canonical globals (request "/foo" "flag" []) = "/foo?flag="
  /\ buildFullPath range_canonical globals (request "/foo" "q=%zz" []) = "/foo"
  /\ "/foo?a=2&b=1" <> "/foo" +:+ "?" +:+ "b=1&a=2".
Proof. repeat split; try (vm_compute; reflexivity). discriminate. Qed.

(** ** The package's tests, evaluated on the embedding *)

Section Tests.

(** [Test_Logger_Access]: status 201 on [GET /foo?q=bar] with the
    cookies [ignore=me; foo=bar] and the blacklist [ignore, user_id]. *)
Example Test_Logger_Access :
  (fun ev => (ev_level ev, ev_message ev, ev_fields ev !! "url",
              ev_fields ev !! "cookies", ev_fields ev !! "response_status",
              ev_fields ev !! "correlation_id", ev_fields ev !! "remote_ip"))
    <$> Access range_canonical globals foo_q_bar 0 1000000000 201
  = [(InfoLevel, "201 ->GET /foo?...", Some (FStr "/foo?q=bar"),
      Some (FCookies {[ "foo" := "bar" ]}), Some (FInt 201),
      Some (FStr "correlation-123"), Some (FStr "127.0.0.1"))].
Proof. vm_compute. reflexivity. Qed.

(** [Test_Logger_Call]: a 404 response, with [q] anonymized. *)
Example Test_Logger_Call :
  (fun ev => (ev_level ev, ev_message ev, ev_fields ev !! "url",
              ev_fields ev !! "full_url", ev_fields ev !! "duration"))
    <$> Call range_canonical (anonymizing ["q"]) foo_q_bar
          (Some {| StatusCode := 404;
                   resp_Header := {[ "Content-Type" := ["text/html"] ]} |})
          0 1000000000 None
  = [(WarnLevel, "404 GET-> http://www.example.org/foo?q=*****",
      Some (FStr "/foo?q=*****"), Some (FStr "http://www.example.org/foo?q=*****"),
      Some (FInt 1000))].
Proof. vm_compute. reflexivity. Qed.

(** [Test_Logger_Call], with an error and with neither error nor
    response. *)
Example Test_Logger_Call_error :
  (fun ev => (ev_level ev, ev_message ev, ev_fields ev !! ErrorKey))
    <$> (Call range_canonical globals foo_q_bar None 0 0 (Some "oops")
         ++ Call range_canonical globals foo_q_bar None 0 0 None)
  = [(ErrorLevel, "oops", Some (FStr "oops"));
     (WarnLevel, "call, but no response given", None)].
Proof. vm_compute. reflexivity. Qed.

(** [Test_buildFullPath]: [q1] and [q3] anonymized. *)
Example Test_buildFullPath :
  buildFullPath range_reversed (anonymizing ["q1"; "q3"])
    (request "" "q1=hello&q2=world" []) = "?q1=*****&q2=world".
Proof. vm_compute. reflexivity. Qed.

(** [Test_Logger_GetRemoteIp3]: the peer address without its port. *)
Example Test_Logger_GetRemoteIp3 :
  getRemoteIp {| Method := "GET"; URL := URL foo_q_bar; Proto := "HTTP/1.1"; Header := ∅;
                 Host := ""; RemoteAddr := "1234:80"; Cookies := [] |} = "1234".
Proof. vm_compute. reflexivity. Qed.

(** [Test_Logger_Access_ErrorCases] and the bounds of the ranges: the
    severity for a few status codes. *)
Example severity_examples :
  (fun s => ev_level <$> Access range_canonical globals foo_q_bar 0 0 s)
    <$> [0; 199; 200; 399; 400; 404; 499; 500; -1]%Z
  = [[ErrorLevel]; [ErrorLevel]; [InfoLevel]; [InfoLevel]; [WarnLevel]; [WarnLevel];
     [WarnLevel]; [ErrorLevel]; [ErrorLevel]].
Proof. vm_compute. reflexivity. Qed.

(** [Set] with a level that [ParseLevel] rejects and with one it
    accepts. *)
Example Set_examples :
  Set_ "verbose" true globals
  = (globals, Some ("not a valid logrus Level: " +:+ dquote +:+ "verbose" +:+ dquote))
  /\ Set_ "ERROR" true globals
     = (with_Logger {| Formatter := TextFormatter; Level_ := ErrorLevel |} globals, None).
Proof. split; reflexivity. Qed.

(** The origin of a panic is the innermost frame outside the runtime;
    without any known frame the program counters are printed. *)
Example identifyLogOrigin_examples :
  identifyLogOrigin [runtime_frame; main_frame] = "main.handler:12"
  /\ identifyLogOrigin [{| frame_pc := 255; frame_fn := None |}]
     = "pc:[ff 0 0 0 0 0 0 0 0 0 0 0 0 0 0 0]".
Proof. split; vm_compute; reflexivity. Qed.

End Tests.

(** * Further properties of the package *)

(** Lookups in a map built by a run of inserts. *)
Ltac lookup_fields :=
  repeat first [ rewrite lookup_insert_eq
               | rewrite lookup_insert_ne by discriminate
               | rewrite setCorrelationIds_other by discriminate
               | rewrite lookup_empty ].

(** ** getRemoteIp and contains *)

Lemma Cut_before (s : string) (sep : ascii) :
  ContainsByte (Cut s sep).1.1 sep = false
  /\ s = (Cut s sep).1.1 +:+ (if (Cut s sep).2 then String sep (Cut s sep).1.2 else "").
Proof.
  induction s as [|c s [IH1 IH2]]; [split; reflexivity|].
  cbn [Cut]. destruct (Ascii.eqb_spec c sep) as [->|Hne].
  - cbn [fst snd]. split; reflexivity.
  - destruct (Cut s sep) as [[before after] found]. cbn [fst snd] in *.
    split.
    + cbn [ContainsByte]. rewrite IH1. apply Ascii.eqb_neq in Hne. now rewrite Hne.
    + rewrite append_cons. now rewrite <- IH2.
Qed.

(** X1: [getRemoteIp] returns the header X-Cluster-Client-Ip when it is
    not empty, else the header X-Real-Ip when that is not empty, else
    the text of the peer address before its first colon (the whole
    address when it has none). *)
Theorem getRemoteIp_precedence (r : Request) :
  let cluster := Header_Get (Header r) "X-Cluster-Client-Ip" in
  let real := Header_Get (Header r) "X-Real-Ip" in
  (cluster <> "" -> getRemoteIp r = cluster)
  /\ (cluster = "" -> real <> "" -> getRemoteIp r = real)
  /\ (cluster = "" -> real = "" ->
      ContainsByte (getRemoteIp r) ":" = false
      /\ (RemoteAddr r = getRemoteIp r
          \/ exists rest, RemoteAddr r = getRemoteIp r +:+ String ":" rest)).
Proof.
  cbv zeta. unfold getRemoteIp. split; [|split].
  - intros H. now rewrite (eqb_empty_false _ H).
  - intros -> H. cbn [String.eqb negb]. now rewrite (eqb_empty_false _ H).
  - intros -> ->. cbn [String.eqb negb]. unfold SplitFirst.
    destruct (Cut_before (RemoteAddr r) ":") as [H1 H2]. split; [exact H1|].
    destruct (Cut (RemoteAddr r) ":").2.
    + right. eexists. exact H2.
    + left. now rewrite append_nil_r in H2.
Qed.

(** A bracketed IPv6 peer address is cut at the first colon inside the
    brackets. *)
Example getRemoteIp_ipv6 :
  getRemoteIp {| Method := "GET"; URL := URL foo_q_bar; Proto := "HTTP/1.1"; Header := ∅;
                 Host := ""; RemoteAddr := "[2001:db8::1]:8080"; Cookies := [] |}
  = "[2001".
Proof. vm_compute. reflexivity. Qed.

Lemma contains_true_iff (s : list string) (e : string) :
  contains s e = true <-> e ∈ s.
Proof.
  induction s as [|a s IH]; cbn [contains].
  - split; [discriminate|]. intros H. now apply not_elem_of_nil in H.
  - rewrite elem_of_cons. destruct (String.eqb_spec a e) as [->|Hne].
    + split; auto.
    + rewrite IH. split; [auto|]. intros [H|H]; [congruence | exact H].
Qed.

(** X2: [contains] is the membership test of its list: it answers true
    exactly for the strings that occur in it, wherever and however often
    they occur, and false for all others. *)
Theorem contains_elem_of (s : list string) (e : string) :
  (contains s e = true <-> e ∈ s) /\ (contains s e = false <-> e ∉ s).
Proof.
  split; [apply contains_true_iff|].
  rewrite <- contains_true_iff. destruct (contains s e); split; congruence.
Qed.

(** ** Durations *)

Lemma duration_ms_bounds (start now : Z) :
  (start <= now)%Z ->
  (0 <= duration_ms start now)%Z
  /\ (1000000 * duration_ms start now <= now - start
      < 1000000 * (duration_ms start now + 1))%Z.
Proof.
  intros H. unfold duration_ms.
  rewrite Z.quot_div_nonneg by lia.
  pose proof (Z.div_mod (now - start) 1000000 ltac:(lia)) as Hd.
  pose proof (Z.mod_pos_bound (now - start) 1000000 ltac:(lia)) as Hm.
  split; [apply Z.div_pos; lia | lia].
Qed.

(** X4: when the clock has not gone back since [start], the duration
    field of access and call events is the elapsed time in whole
    milliseconds, rounded down: it is not negative and within one
    millisecond below the elapsed nanoseconds. *)
Theorem duration_logged (rg : MapRange) (g : Globals) (r : Request)
  (resp : option Response) (start now s : Z) (err : option string) :
  (start <= now)%Z ->
  exists d,
    access rg g r start now s err !! "duration" = Some (FInt d)
    /\ Forall (fun ev => ev_fields ev !! "duration" = Some (FInt d))
         (Call rg g r resp start now err)
    /\ (0 <= d)%Z
    /\ (1000000 * d <= now - start < 1000000 * (d + 1))%Z.
Proof.
  intros H. exists (duration_ms start now).
  split; [|split; [|apply duration_ms_bounds, H]].
  - unfold access, WithFields, ErrorKey.
    destruct (0 <? size (foldl (keep_cookie g) ∅ (Cookies r)))%nat,
      (negb (s =? 0)%Z), err as [e|]; lookup_fields; reflexivity.
  - unfold Call, WithFields, ErrorKey. destruct err as [e|]; [|destruct resp as [rp|]];
      [| destruct ((200 <=? StatusCode rp)%Z && (StatusCode rp <=? 399)%Z);
         [|destruct ((400 <=? StatusCode rp)%Z && (StatusCode rp <=? 499)%Z)] |];
      apply Forall_singleton; cbn [ev_fields]; lookup_fields; reflexivity.
Qed.

(** 1.9 seconds are logged as 1900 ms, 999999 ns as 0 ms. *)
Lemma duration_logged_witness :
  (0 <= 1900000000)%Z
  /\ access range_canonical globals foo_q_bar 0 1900000000 200 None !! "duration"
     = Some (FInt 1900)
  /\ access range_canonical globals foo_q_bar 0 999999 200 None !! "duration"
     = Some (FInt 0).
Proof.
  destruct (duration_logged range_canonical globals foo_q_bar None 0 1900000000 200 None
              ltac:(lia)) as (d & Hd & _ & _ & Hb).
  assert (d = 1900%Z) as -> by lia.
  split; [lia|]. split; [exact Hd | vm_compute; reflexivity].
Defined.

(** ** The query string of buildFullPath *)

(** X5: the error that [buildFullPath] drops when it unescapes the
    encoded query never occurs: [QueryUnescape] accepts every output of
    [Encode], and returns its pairs with keys and values unescaped. *)
Theorem unescape_of_Encode (rg : MapRange) (v : Values) :
  QueryUnescape (Encode rg v) = Some (Join (show_pair <$> Encode_pairs rg v) "&")
  /\ QueryUnescape (Encode rg v) <> None.
Proof. rewrite QueryUnescape_Encode. split; [reflexivity | discriminate]. Qed.

(** ** Call and setCorrelationIds *)

(** X9: when [Call] is given an error it does not look at the response:
    the event is the same with and without one, and it has neither a
    response_status nor a content_type field. *)
Theorem Call_error_first (rg : MapRange) (g : Globals) (r : Request)
  (resp : option Response) (start now : Z) (e : string) :
  Call rg g r resp start now (Some e) = Call rg g r None start now (Some e)
  /\ Forall (fun ev =>
               ev_fields ev !! "response_status" = None
               /\ ev_fields ev !! "content_type" = None
               /\ ev_level ev = ErrorLevel)
       (Call rg g r resp start now (Some e)).
Proof.
  split; [reflexivity|]. unfold Call, WithFields, ErrorKey.
  apply Forall_singleton. cbn [ev_fields ev_level].
  repeat split; lookup_fields; reflexivity.
Qed.

(** X10: [setCorrelationIds] changes no field but correlation_id and
    user_correlation_id; it sets each of the two when its header has a
    value and leaves it as it was, present or not, when the header is
    empty or unset. *)
Theorem setCorrelationIds_frame (g : Globals) (fields : Fields) (h : HeaderT) (k : string) :
  let out := setCorrelationIds g fields h in
  (k <> "correlation_id" -> k <> "user_correlation_id" -> out !! k = fields !! k)
  /\ out !! "correlation_id"
     = (if decide (GetCorrelationId g h = "") then fields !! "correlation_id"
        else Some (FStr (GetCorrelationId g h)))
  /\ out !! "user_correlation_id"
     = (if decide (GetUserCorrelationId g h = "") then fields !! "user_correlation_id"
        else Some (FStr (GetUserCorrelationId g h))).
Proof.
  cbv zeta. split; [apply setCorrelationIds_other|]. unfold setCorrelationIds.
  destruct (String.eqb_spec (GetUserCorrelationId g h) "") as [Hu|Hu];
    destruct (String.eqb_spec (GetCorrelationId g h) "") as [Hc|Hc];
    cbn [negb]; repeat case_decide; try congruence;
    split; lookup_fields; reflexivity.
Qed.

(** ** The redaction lists as sets *)

Section PolicySets.
Variable rg : MapRange.

Lemma contains_same_set (l1 l2 : list string) (e : string) :
  (list_to_set l1 : gset string) = list_to_set l2 -> contains l1 e = contains l2 e.
Proof.
  intros H.
  assert (He : e ∈ l1 <-> e ∈ l2).
  { rewrite <- !(elem_of_list_to_set (C := gset string)). now rewrite H. }
  rewrite <- !contains_true_iff in He.
  destruct (contains l1 e), (contains l2 e); intuition congruence.
Qed.

Lemma keep_cookie_ext (g1 g2 : Globals) (cs : list Cookie) :
  (forall e, contains (AccessLogCookiesBlacklist g1) e
             = contains (AccessLogCookiesBlacklist g2) e) ->
  forall m, foldl (keep_cookie g1) m cs = foldl (keep_cookie g2) m cs.
Proof.
  intros H. induction cs as [|c cs IH]; intros m; [reflexivity|].
  cbn [foldl]. rewrite IH. unfold keep_cookie. now rewrite H.
Qed.

Lemma logged_pairs_ext (g1 g2 : Globals) (r : Request) :
  (forall e, contains (AnonymizedQueryParams g1) e = contains (AnonymizedQueryParams g2) e) ->
  logged_pairs g1 r = logged_pairs g2 r.
Proof.
  intros H. unfold logged_pairs. apply bind_ext_in. intros k _.
  unfold redact_values. now rewrite H.
Qed.

Lemma buildFullPath_ext (g1 g2 : Globals) (r : Request) :
  (forall e, contains (AnonymizedQueryParams g1) e = contains (AnonymizedQueryParams g2) e) ->
  buildFullPath rg g1 r = buildFullPath rg g2 r.
Proof.
  intros H. rewrite !buildFullPath_pairs. now rewrite (logged_pairs_ext g1 g2 r H).
Qed.

Lemma setCorrelationIds_ext (g1 g2 : Globals) (fields : Fields) (h : HeaderT) :
  CorrelationIdHeader g1 = CorrelationIdHeader g2 ->
  UserCorrelationIdHeader g1 = UserCorrelationIdHeader g2 ->
  setCorrelationIds g1 fields h = setCorrelationIds g2 fields h.
Proof.
  intros H1 H2. unfold setCorrelationIds, GetCorrelationId, GetUserCorrelationId.
  now rewrite H1, H2.
Qed.

Lemma access_ext (g1 g2 : Globals) (r : Request) (start now s : Z) (err : option string) :
  (forall e, contains (AccessLogCookiesBlacklist g1) e
             = contains (AccessLogCookiesBlacklist g2) e) ->
  (forall e, contains (AnonymizedQueryParams g1) e = contains (AnonymizedQueryParams g2) e) ->
  CorrelationIdHeader g1 = CorrelationIdHeader g2 ->
  UserCorrelationIdHeader g1 = UserCorrelationIdHeader g2 ->
  access rg g1 r start now s err = access rg g2 r start now s err.
Proof.
  intros Hb Ha H1 H2. unfold access.
  rewrite (buildFullPath_ext g1 g2 r Ha), (keep_cookie_ext g1 g2 (Cookies r) Hb).
  destruct (negb (s =? 0)%Z), err as [e|];
    now rewrite (setCorrelationIds_ext g1 g2 _ _ H1 H2).
Qed.

Lemma Call_ext (g1 g2 : Globals) (r : Request) (resp : option Response) (start now : Z)
  (err : option string) :
  (forall e, contains (AnonymizedQueryParams g1) e = contains (AnonymizedQueryParams g2) e) ->
  CorrelationIdHeader g1 = CorrelationIdHeader g2 ->
  UserCorrelationIdHeader g1 = UserCorrelationIdHeader g2 ->
  Call rg g1 r resp start now err = Call rg g2 r resp start now err.
Proof.
  intros Ha H1 H2. unfold Call, buildFullUrl.
  rewrite (buildFullPath_ext g1 g2 r Ha).
  now rewrite (setCorrelationIds_ext g1 g2 _ _ H1 H2).
Qed.

End PolicySets.

(** X3: the events depend on the cookie blacklist and on the anonymized
    parameter names only as sets: two configurations whose lists hold
    the same names, in any order and with any repetitions, produce the
    same access, access-error and call events. *)
Theorem policy_lists_as_sets (rg : MapRange) (g : Globals)
  (blacklist1 blacklist2 anonymized1 anonymized2 : list string)
  (r : Request) (resp : option Response) (start now s : Z) (err : option string)
  (msg : string) :
  (list_to_set blacklist1 : gset string) = list_to_set blacklist2 ->
  (list_to_set anonymized1 : gset string) = list_to_set anonymized2 ->
  let g1 := with_policy blacklist1 anonymized1 g in
  let g2 := with_policy blacklist2 anonymized2 g in
  Access rg g1 r start now s = Access rg g2 r start now s
  /\ AccessError rg g1 r start now msg = AccessError rg g2 r start now msg
  /\ Call rg g1 r resp start now err = Call rg g2 r resp start now err.
Proof.
  intros Hb Ha. cbv zeta.
  assert (Hacc : forall s' err',
    access rg (with_policy blacklist1 anonymized1 g) r start now s' err'
    = access rg (with_policy blacklist2 anonymized2 g) r start now s' err').
  { intros s' err'. apply access_ext; try reflexivity; intros e; cbn;
      now apply contains_same_set. }
  split; [|split].
  - unfold Access. now rewrite Hacc.
  - unfold AccessError. now rewrite Hacc.
  - apply Call_ext; try reflexivity. intros e. cbn. now apply contains_same_set.
Qed.

(** The lists of the tests, reordered and with a name repeated. *)
Lemma policy_lists_as_sets_witness :
  Access range_canonical (with_policy ["ignore"; "user_id"] ["q"; "token"] globals)
    foo_q_bar 0 0 200
  = Access range_canonical
      (with_policy ["user_id"; "ignore"; "user_id"] ["token"; "q"; "q"] globals)
      foo_q_bar 0 0 200.
Proof.
  apply (policy_lists_as_sets range_canonical globals
           ["ignore"; "user_id"] ["user_id"; "ignore"; "user_id"]
           ["q"; "token"] ["token"; "q"; "q"] foo_q_bar None 0 0 200 None "");
    vm_compute; reflexivity.
Defined.

(** ** The parameters buildFullPath writes *)

Section LoggedParameters.

(** [parseQuery] never stores an empty list of values. *)
Lemma parseQuery_pair_nonempty (m : Values) (seg : string) :
  (forall k vs, m !! k = Some vs -> vs <> []) ->
  forall k vs, parseQuery_pair m seg !! k = Some vs -> vs <> [].
Proof.
  intros Hm k vs. unfold parseQuery_pair.
  destruct (ContainsByte seg ";"); [apply Hm|].
  destruct (String.eqb seg ""); [apply Hm|].
  destruct (Cut seg "=") as [[key value] found].
  destruct (QueryUnescape key) as [key1|]; [|apply Hm].
  destruct (QueryUnescape value) as [value1|]; [|apply Hm].
  destruct (decide (key1 = k)) as [->|Hne].
  - rewrite lookup_insert_eq. intros [= <-]. now destruct (m !!! k).
  - rewrite lookup_insert_ne by exact Hne. apply Hm.
Qed.

Lemma parseQuery_loop_nonempty (fuel : nat) :
  forall (m : Values) (query : string),
    (forall k vs, m !! k = Some vs -> vs <> []) ->
    forall k vs, parseQuery_loop fuel m query !! k = Some vs -> vs <> [].
Proof.
  induction fuel as [|fuel IH]; intros m query Hm; [exact Hm|].
  cbn [parseQuery_loop]. destruct (String.eqb query ""); [exact Hm|].
  destruct (Cut query "&") as [[key query'] found].
  apply IH. now apply parseQuery_pair_nonempty.
Qed.

Lemma Query_values_nonempty (r : Request) (k : string) (vs : list string) :
  Query (URL r) !! k = Some vs -> vs <> [].
Proof.
  unfold Query, ParseQuery. apply parseQuery_loop_nonempty.
  intros k' vs'. rewrite lookup_empty. discriminate.
Qed.

Lemma redact_values_nonempty (g : Globals) (k : string) (vs : list string) :
  vs <> [] -> redact_values g k vs <> [].
Proof. unfold redact_values. destruct (contains _ k); [discriminate | auto]. Qed.

Lemma elem_of_fst_filter {B : Type} (l : list (string * B)) (k : string) :
  k ∈ l.*1 <-> filter (fun p => p.1 = k) l <> [].
Proof.
  induction l as [|p l IH].
  - cbn. rewrite elem_of_nil. split; [tauto | congruence].
  - rewrite fmap_cons, elem_of_cons, IH. destruct (decide (p.1 = k)) as [He|Hne].
    + rewrite filter_cons_True by exact He. split; [discriminate | auto].
    + rewrite filter_cons_False by exact Hne. split; [|tauto].
      intros [H|H]; [congruence | exact H].
Qed.

Lemma elem_of_logged_pairs (g : Globals) (r : Request) (k : string) :
  k ∈ (logged_pairs g r).*1 <-> is_Some (Query (URL r) !! k).
Proof.
  rewrite elem_of_fst_filter. destruct (Query (URL r) !! k) as [vs|] eqn:Hk.
  - rewrite (logged_pairs_key g r k vs Hk). split; [eauto|]. intros _ H.
    apply fmap_nil_inv in H.
    apply (redact_values_nonempty g k vs); [|exact H].
    now apply (Query_values_nonempty r k).
  - rewrite (logged_pairs_absent g r k Hk). split; [congruence|].
    intros [? ?]; discriminate.
Qed.

Lemma logged_pairs_nil (g : Globals) (r : Request) :
  logged_pairs g r = [] <-> Query (URL r) = ∅.
Proof.
  split.
  - intros H. apply map_empty. intros k.
    destruct (Query (URL r) !! k) as [vs|] eqn:Hk; [|reflexivity]. exfalso.
    assert (Hin : k ∈ (logged_pairs g r).*1) by (apply elem_of_logged_pairs; eauto).
    rewrite H in Hin. now apply not_elem_of_nil in Hin.
  - intros H. destruct (logged_pairs g r) as [|p ps] eqn:Hps; [reflexivity|]. exfalso.
    assert (Hin : p.1 ∈ (logged_pairs g r).*1) by (rewrite Hps, fmap_cons; left).
    apply elem_of_logged_pairs in Hin as [vs Hvs]. rewrite H, lookup_empty in Hvs.
    discriminate.
Qed.

Lemma sorted_bind_keys {B : Type} (f : string -> list B) (keys : list string) :
  StronglySorted String.le keys ->
  StronglySorted String.le (keys ≫= (fun k => (fun x => (k, x)) <$> f k)).*1.
Proof.
  induction keys as [|k keys IH]; intros Hs; [constructor|].
  apply StronglySorted_inv in Hs as [Hs Hk].
  rewrite bind_cons, fmap_app. apply StronglySorted_app_2.
  - intros k1 k2 H1 H2.
    apply list_elem_of_fmap in H1 as [p1 [-> H1]].
    apply list_elem_of_fmap in H1 as [x1 [-> _]]. cbn [fst].
    apply list_elem_of_fmap in H2 as [p2 [-> H2]].
    apply list_elem_of_bind in H2 as [k' [H2 Hk']].
    apply list_elem_of_fmap in H2 as [x2 [-> _]]. cbn [fst].
    rewrite Forall_forall in Hk. now apply Hk.
  - induction (f k) as [|x l IHl]; [constructor|].
    rewrite !fmap_cons. constructor; [exact IHl|].
    apply Forall_forall. intros k' Hk'.
    apply list_elem_of_fmap in Hk' as [p [-> Hp]].
    apply list_elem_of_fmap in Hp as [y [-> _]]. reflexivity.
  - now apply IH.
Qed.

(** A lookup in a filtered map, for a key whose entries all pass the
    filter. *)
Lemma lookup_filter_key (P : string -> Prop) `{forall k, Decision (P k)}
  (m : Values) (k : string) :
  P k -> filter (fun kv : string * list string => P kv.1) m !! k = m !! k.
Proof.
  intros HP. destruct (m !! k) as [vs|] eqn:Hk.
  - now apply map_lookup_filter_Some_2.
  - apply map_lookup_filter_None_2. now left.
Qed.

Lemma redacted_same (g : Globals) (q1 q2 : Values) :
  dom q1 = dom q2 ->
  filter (fun kv : string * list string => contains (AnonymizedQueryParams g) kv.1 = false) q1
  = filter (fun kv : string * list string => contains (AnonymizedQueryParams g) kv.1 = false) q2 ->
  redacted g q1 = redacted g q2.
Proof.
  intros Hdom Hopen. apply map_eq. intros k. rewrite !redacted_lookup.
  unfold redact_values. destruct (contains (AnonymizedQueryParams g) k) eqn:Hk.
  - assert (Hs : is_Some (q1 !! k) <-> is_Some (q2 !! k)).
    { rewrite <- !elem_of_dom. now rewrite Hdom. }
    destruct (q1 !! k), (q2 !! k); try reflexivity; exfalso.
    + destruct Hs as [Hs _]. destruct Hs as [? ?]; [eauto | discriminate].
    + destruct Hs as [_ Hs]. destruct Hs as [? ?]; [eauto | discriminate].
  - rewrite <- (lookup_filter_key
                 (fun k => contains (AnonymizedQueryParams g) k = false) q1 k Hk).
    rewrite <- (lookup_filter_key
                 (fun k => contains (AnonymizedQueryParams g) k = false) q2 k Hk).
    now rewrite Hopen.
Qed.

End LoggedParameters.

(** X6: [buildFullPath] returns the bare path, without a question mark,
    exactly when the query has no parameter that [URL.Query] accepts,
    as for an empty raw query; otherwise the path is followed by [?]
    and a non-empty text. *)
Theorem buildFullPath_without_parameters (rg : MapRange) (g : Globals) (r : Request) :
  (Query (URL r) = ∅ -> buildFullPath rg g r = Path (URL r))
  /\ (Query (URL r) <> ∅ ->
      exists q, q <> "" /\ buildFullPath rg g r = Path (URL r) +:+ "?" +:+ q)
  /\ (RawQuery (URL r) = "" -> buildFullPath rg g r = Path (URL r)).
Proof.
  assert (Hempty : Query (URL r) = ∅ -> buildFullPath rg g r = Path (URL r)).
  { intros H. rewrite buildFullPath_pairs.
    now rewrite (proj2 (logged_pairs_nil g r) H). }
  split; [exact Hempty|]. split.
  - intros H. rewrite buildFullPath_pairs.
    destruct (logged_pairs g r) as [|p ps] eqn:Hps.
    + exfalso. apply H. now apply (logged_pairs_nil g r).
    + eexists. split; [|reflexivity]. rewrite Join_show_empty. discriminate.
  - intros H. apply Hempty. unfold Query. rewrite H. reflexivity.
Qed.

(** X8: the pairs that [buildFullPath] writes after the path are in
    ascending order of their keys, whatever the order of the parameters
    in the request, and their keys are exactly the names of the
    request's parameters. *)
Theorem logged_parameters_ascending (rg : MapRange) (g : Globals) (r : Request) :
  buildFullPath rg g r = Path (URL r) +:+ logged_query g r
  /\ StronglySorted String.le (logged_pairs g r).*1
  /\ (forall k, k ∈ (logged_pairs g r).*1 <-> is_Some (Query (URL r) !! k)).
Proof.
  split; [apply buildFullPath_logged_query|]. split; [|apply elem_of_logged_pairs].
  unfold logged_pairs.
  apply (sorted_bind_keys (fun k => redact_values g k (Query (URL r) !!! k))).
  unfold sorted_keys, SortStrings. apply StronglySorted_merge_sort; apply _.
Qed.

(** X7: the values of anonymized parameters have no influence on what
    [buildFullPath] returns: two requests with the same path, the same
    parameter names and the same values for the names that are not
    anonymized get the same string. *)
Theorem anonymized_values_hidden (rg : MapRange) (g : Globals) (r1 r2 : Request) :
  Path (URL r1) = Path (URL r2) ->
  dom (Query (URL r1)) = dom (Query (URL r2)) ->
  open_parameters g r1 = open_parameters g r2 ->
  buildFullPath rg g r1 = buildFullPath rg g r2.
Proof.
  intros Hpath Hdom Hopen. unfold buildFullPath.
  rewrite !redact_fold, Hpath.
  now rewrite (redacted_same g (Query (URL r1)) (Query (URL r2)) Hdom Hopen).
Qed.

(** Two logins that differ in the anonymized token only. *)
Lemma anonymized_values_hidden_witness :
  let g := anonymizing ["token"] in
  let r1 := request "/login" "user=ann&token=abc" [] in
  let r2 := request "/login" "token=xyz&token=2&user=ann" [] in
  buildFullPath range_canonical g r1 = buildFullPath range_canonical g r2
  /\ buildFullPath range_canonical g r1 = "/login?token=*****&user=ann".
Proof.
  cbv zeta. split; [|vm_compute; reflexivity].
  apply (anonymized_values_hidden range_canonical (anonymizing ["token"])
           (request "/login" "user=ann&token=abc" [])
           (request "/login" "token=xyz&token=2&user=ann" []));
    vm_compute; reflexivity.
Defined.

(** ** The fields of access events *)

#[local] Set Warnings "-clear-no-such-hyp".

Section AccessFields.
Variable rg : MapRange.
Variable g : Globals.

Lemma keep_cookie_filter (cs : list Cookie) :
  forall m,
    foldl (keep_cookie g) m cs
    = foldl (keep_cookie g) m
        (filter (fun c => contains (AccessLogCookiesBlacklist g) (Name c) = false) cs).
Proof.
  induction cs as [|c cs IH]; intros m; [reflexivity|].
  cbn [foldl]. rewrite IH. unfold keep_cookie at 2.
  destruct (contains (AccessLogCookiesBlacklist g) (Name c)) eqn:Hc; cbn [negb].
  - rewrite filter_cons_False by congruence. reflexivity.
  - rewrite filter_cons_True by exact Hc. cbn [foldl]. unfold keep_cookie at 3.
    now rewrite Hc.
Qed.

Lemma dom_setCorrelationIds (fields : Fields) (h : HeaderT) :
  dom fields ⊆ dom (setCorrelationIds g fields h)
  /\ dom (setCorrelationIds g fields h)
     ⊆ dom fields ∪ {[ "correlation_id"; "user_correlation_id" ]}.
Proof.
  unfold setCorrelationIds.
  destruct (negb (String.eqb (GetUserCorrelationId g h) ""));
    destruct (negb (String.eqb (GetCorrelationId g h) ""));
    rewrite ?dom_insert_L; set_solver.
Qed.

Lemma access_dom_tail (f : Fields) (h : HeaderT) (b : bool) (v : FieldValue) :
  access_base_fields ⊆ dom f ->
  dom f ⊆ access_base_fields ∪ access_optional_fields ->
  access_base_fields
    ⊆ dom (if b then <["cookies" := v]> (setCorrelationIds g f h)
           else setCorrelationIds g f h)
  /\ dom (if b then <["cookies" := v]> (setCorrelationIds g f h)
          else setCorrelationIds g f h)
     ⊆ access_base_fields ∪ access_optional_fields.
Proof.
  intros Hf1 Hf2. destruct (dom_setCorrelationIds f h) as [Hlo Hhi].
  destruct b; rewrite ?dom_insert_L; unfold access_optional_fields in *; set_solver.
Qed.

Lemma access_dom (r : Request) (start now s : Z) (err : option string) :
  access_base_fields ⊆ dom (access rg g r start now s err)
  /\ dom (access rg g r start now s err) ⊆ access_base_fields ∪ access_optional_fields.
Proof.
  unfold access, WithFields, ErrorKey. cbv zeta.
  apply access_dom_tail;
    destruct (negb (s =? 0)%Z), err as [e|]; rewrite !dom_insert_L, dom_empty_L;
    unfold access_base_fields, access_optional_fields; set_solver.
Qed.

Lemma access_status_error (r : Request) (start now s : Z) (err : option string) :
  access rg g r start now s err !! "response_status"
    = (if decide (s = 0%Z) then None else Some (FInt s))
  /\ access rg g r start now s err !! "error" = FStr <$> err.
Proof.
  unfold access, WithFields, ErrorKey.
  destruct (Z.eqb_spec s 0) as [Hs|Hs]; cbn [negb]; case_decide; try congruence;
    destruct (0 <? size (foldl (keep_cookie g) ∅ (Cookies r)))%nat, err as [e|];
    split; lookup_fields; reflexivity.
Qed.

End AccessFields.

(** X11: every access event has the fields type, @timestamp, remote_ip,
    host, url, method, proto, duration and User_Agent, and no field
    besides response_status, error, the two correlation ids and
    cookies; response_status is present exactly when the status code is
    not 0, error exactly when an error is given. *)
Theorem access_fields (rg : MapRange) (g : Globals) (r : Request)
  (start now s : Z) (err : option string) :
  let fields := access rg g r start now s err in
  access_base_fields ⊆ dom fields
  /\ dom fields ⊆ access_base_fields ∪ access_optional_fields
  /\ fields !! "type" = Some (FStr "access")
  /\ fields !! "response_status" = (if decide (s = 0%Z) then None else Some (FInt s))
  /\ fields !! "error" = FStr <$> err.
Proof.
  cbv zeta. destruct (access_dom rg g r start now s err) as [H1 H2].
  destruct (access_status_error rg g r start now s err) as [H3 H4].
  repeat split; try assumption.
  unfold access, WithFields, ErrorKey.
  destruct (0 <? size (foldl (keep_cookie g) ∅ (Cookies r)))%nat,
    (negb (s =? 0)%Z), err as [e|]; lookup_fields; reflexivity.
Qed.

(** X12: blacklisted cookies have no influence on the cookies field of
    an access event: two requests whose cookies agree once the
    blacklisted ones are left out get the same field. *)
Theorem blacklisted_cookies_hidden (rg : MapRange) (g : Globals) (r1 r2 : Request)
  (start now s : Z) (err : option string) :
  loggable_cookies g r1 = loggable_cookies g r2 ->
  kept_cookies g r1 = kept_cookies g r2
  /\ access rg g r1 start now s err !! "cookies"
     = access rg g r2 start now s err !! "cookies".
Proof.
  intros H.
  assert (Hk : kept_cookies g r1 = kept_cookies g r2).
  { unfold kept_cookies. rewrite (keep_cookie_filter g (Cookies r1)).
    rewrite (keep_cookie_filter g (Cookies r2)).
    unfold loggable_cookies in H. now rewrite H. }
  split; [exact Hk|]. rewrite !access_cookies. now rewrite Hk.
Qed.

(** Two requests that differ in the blacklisted cookies only. *)
Lemma blacklisted_cookies_hidden_witness :
  let r1 := request "/" "" [ {| Name := "user_id"; Value := "7" |};
                             {| Name := "theme"; Value := "dark" |} ] in
  let r2 := request "/" "" [ {| Name := "theme"; Value := "dark" |};
                             {| Name := "ignore"; Value := "x" |};
                             {| Name := "user_id"; Value := "8" |} ] in
  kept_cookies globals r1 = kept_cookies globals r2
  /\ kept_cookies globals r1 = {[ "theme" := "dark" ]}.
Proof.
  cbv zeta. split; [|vm_compute; reflexivity].
  apply (blacklisted_cookies_hidden range_canonical globals
           (request "/" "" [ {| Name := "user_id"; Value := "7" |};
                             {| Name := "theme"; Value := "dark" |} ])
           (request "/" "" [ {| Name := "theme"; Value := "dark" |};
                             {| Name := "ignore"; Value := "x" |};
                             {| Name := "user_id"; Value := "8" |} ])
           0 0 200 None).
  vm_compute. reflexivity.
Defined.

(** X13: the entry [Application] returns has the field type with the
    value application and, besides, at most the two correlation ids: no
    other header reaches it. *)
Theorem Application_fields (g : Globals) (h : HeaderT) :
  Application g h !! "type" = Some (FStr "application")
  /\ dom (Application g h) ⊆ {[ "type"; "correlation_id"; "user_correlation_id" ]}.
Proof.
  unfold Application, WithFields. split.
  - lookup_fields. reflexivity.
  - destruct (dom_setCorrelationIds g (<["type" := FStr "application"]> ∅) h) as [_ H].
    rewrite dom_insert_L, dom_empty_L in H. set_solver.
Qed.

(** ** The origin of a panic *)

Section Origin.

Lemma identifyLogOrigin_loop_skipped (pre : list Frame) :
  Forall (fun f => skipped_frame f = true) pre ->
  forall rest name file line,
    identifyLogOrigin_loop (pre ++ rest) name file line
    = let '(name', file', line') := identifyLogOrigin_loop pre name file line in
      identifyLogOrigin_loop rest name' file' line'.
Proof.
  induction pre as [|f pre IH]; intros Hpre rest name file line; [reflexivity|].
  apply Forall_cons in Hpre as [Hf Hpre]. unfold skipped_frame in Hf.
  cbn [app identifyLogOrigin_loop]. destruct (frame_fn f) as [fn|].
  - rewrite Hf. cbn [negb]. now apply IH.
  - now apply IH.
Qed.

Lemma take_frames (pre post : list Frame) (f : Frame) :
  (length pre < 16)%nat ->
  take 16 (pre ++ f :: post) = pre ++ f :: take (15 - length pre) post.
Proof.
  intros H. rewrite take_app_ge by lia.
  replace (16 - length pre)%nat with (S (15 - length pre)) by lia. reflexivity.
Qed.

Lemma origin_nonempty (a b : string) : a +:+ ":" +:+ b <> "".
Proof.
  intros H. apply (f_equal String.length) in H.
  rewrite !append_length in H. simpl in H. lia.
Qed.

End Origin.

(** X14: [identifyLogOrigin] passes over the frames without a known
    function and the frames of package runtime; the first other frame
    among the 16 innermost gives the origin, as [name:line], or as
    [file:line] when the function has no name. *)
Theorem identifyLogOrigin_first_outside_runtime (pre post : list Frame) (pc : N)
  (fn : FuncT) :
  Forall (fun f => skipped_frame f = true) pre ->
  (length pre < 16)%nat ->
  HasPrefix (fn_Name fn) "runtime." = false ->
  let stack := pre ++ {| frame_pc := pc; frame_fn := Some fn |} :: post in
  (fn_Name fn <> "" -> identifyLogOrigin stack = fn_Name fn +:+ ":" +:+ fmt_int (fn_Line fn))
  /\ (fn_Name fn = "" -> fn_File fn <> "" ->
      identifyLogOrigin stack = fn_File fn +:+ ":" +:+ fmt_int (fn_Line fn)).
Proof.
  intros Hpre Hlen Hfn. cbv zeta. unfold identifyLogOrigin.
  rewrite (take_frames pre post _ Hlen), (identifyLogOrigin_loop_skipped pre Hpre).
  destruct (identifyLogOrigin_loop pre "" "" 0) as [[name' file'] line'].
  cbn [identifyLogOrigin_loop frame_fn]. rewrite Hfn. cbn [negb]. split.
  - intros H. now rewrite (eqb_empty_false _ H).
  - intros -> H. cbn [String.eqb negb]. now rewrite (eqb_empty_false _ H).
Qed.

(** A panic raised in [main.handler], seen through two frames of the
    runtime and one without a function. *)
Lemma identifyLogOrigin_first_outside_runtime_witness :
  identifyLogOrigin
    [runtime_frame; {| frame_pc := 1; frame_fn := None |}; runtime_frame; main_frame;
     {| frame_pc := 2;
        frame_fn := Some {| fn_Name := "net/http.serve"; fn_File := "server.go";
                            fn_Line := 1 |} |}]
  = "main.handler:12".
Proof.
  apply (identifyLogOrigin_first_outside_runtime
           [runtime_frame; {| frame_pc := 1; frame_fn := None |}; runtime_frame]
           [{| frame_pc := 2;
               frame_fn := Some {| fn_Name := "net/http.serve"; fn_File := "server.go";
                                   fn_Line := 1 |} |}]
           4198400 {| fn_Name := "main.handler"; fn_File := "main.go"; fn_Line := 12 |}).
  - repeat constructor.
  - simpl. lia.
  - reflexivity.
  - discriminate.
Defined.

(** X15: when all the frames [identifyLogOrigin] examines belong to
    package runtime or have no known function, the origin it reports is
    the outermost runtime function among them: the name of a runtime
    function is not kept out of the result. *)
Theorem identifyLogOrigin_only_runtime (pre post : list Frame) (pc : N) (fn : FuncT) :
  Forall (fun f => skipped_frame f = true) pre ->
  Forall (fun f => frame_fn f = None) post ->
  (length pre < 16)%nat ->
  HasPrefix (fn_Name fn) "runtime." = true ->
  identifyLogOrigin (pre ++ {| frame_pc := pc; frame_fn := Some fn |} :: post)
  = fn_Name fn +:+ ":" +:+ fmt_int (fn_Line fn).
Proof.
  intros Hpre Hpost Hlen Hfn. unfold identifyLogOrigin.
  rewrite (take_frames pre post _ Hlen), (identifyLogOrigin_loop_skipped pre Hpre).
  destruct (identifyLogOrigin_loop pre "" "" 0) as [[name' file'] line'].
  cbn [identifyLogOrigin_loop frame_fn]. rewrite Hfn. cbn [negb].
  assert (Hrest : forall l name file line,
            Forall (fun f => frame_fn f = None) l ->
            identifyLogOrigin_loop l name file line = (name, file, line)).
  { induction l as [|f l IH]; intros name file line Hl; [reflexivity|].
    apply Forall_cons in Hl as [Hf Hl]. cbn [identifyLogOrigin_loop].
    rewrite Hf. now apply IH. }
  rewrite Hrest.
  - assert (Hne : fn_Name fn <> "") by (intros He; rewrite He in Hfn; discriminate).
    now rewrite (eqb_empty_false _ Hne).
  - now apply Forall_take.
Qed.

(** A stack that holds frames of the runtime only. *)
Lemma identifyLogOrigin_only_runtime_witness :
  identifyLogOrigin
    [{| frame_pc := 1; frame_fn := None |}; runtime_frame;
     {| frame_pc := 2; frame_fn := None |}]
  = "runtime.gopanic:884".
Proof.
  apply (identifyLogOrigin_only_runtime
           [{| frame_pc := 1; frame_fn := None |}]
           [{| frame_pc := 2; frame_fn := None |}]
           4210688 {| fn_Name := "runtime.gopanic"; fn_File := "panic.go";
                      fn_Line := 884 |}).
  - repeat constructor.
  - repeat constructor.
  - simpl. lia.
  - reflexivity.
Defined.

(** X16: [identifyLogOrigin] never returns the empty string, and it
    looks at the 16 innermost frames only: what lies beyond them does
    not change the result. *)
Theorem identifyLogOrigin_window (stack beyond : list Frame) :
  identifyLogOrigin stack <> ""
  /\ ((16 <= length stack)%nat ->
      identifyLogOrigin (stack ++ beyond) = identifyLogOrigin stack).
Proof.
  split.
  - unfold identifyLogOrigin.
    destruct (identifyLogOrigin_loop (take 16 stack) "" "" 0) as [[name file] line].
    destruct (negb (String.eqb name "")); [apply origin_nonempty|].
    destruct (negb (String.eqb file "")); [apply origin_nonempty|].
    discriminate.
  - intros H. unfold identifyLogOrigin. now rewrite (take_app_le stack beyond 16 H).
Qed.

(** ** The middleware and its options *)

Section MiddlewareMore.
Variable rg : MapRange.
Variable g : Globals.
Variable EnsureCorrelationId : Request -> Request.

Lemma options_fold (codes : list Z) :
  forall lmw,
    foldl (fun lmw (option : LogOption) => option lmw) lmw (WithPanicStatus <$> codes)
    = {| Next := Next lmw; panicCode := default (panicCode lmw) (last codes) |}.
Proof.
  induction codes as [|c codes IH]; intros lmw; [now destruct lmw|].
  rewrite fmap_cons. cbn [foldl]. rewrite IH. cbn [WithPanicStatus Next panicCode].
  rewrite last_cons. destruct (last codes); reflexivity.
Qed.

Lemma access_type (r : Request) (start now s : Z) (err : option string) :
  access rg g r start now s err !! "type" = Some (FStr "access").
Proof.
  unfold access, WithFields, ErrorKey.
  destruct (0 <? size (foldl (keep_cookie g) ∅ (Cookies r)))%nat,
    (negb (s =? 0)%Z), err as [e|]; lookup_fields; reflexivity.
Qed.

Lemma ServeHTTP_logged (mw : LogMiddleware) (w : ResponseWriterT) (r : Request)
  (start now : Z) :
  exists s err lvl msg,
    logged (ServeHTTP rg g EnsureCorrelationId mw w r start now)
    = [ {| ev_fields := access rg g (EnsureCorrelationId r) start now s err;
           ev_level := lvl; ev_message := msg |} ].
Proof.
  destruct (completion (Next mw (EnsureCorrelationId r))) as [|rec stack] eqn:H.
  - rewrite (ServeHTTP_Returned rg g EnsureCorrelationId mw w r start now H).
    cbn [logged]. rewrite Access_event. eauto.
  - rewrite (ServeHTTP_Panicked rg g EnsureCorrelationId mw w r start now rec stack H).
    cbn [logged]. unfold AccessError, Entry_Error, Entry_Log. eauto.
Qed.

End MiddlewareMore.

(** X17: [NewLogMiddleware] with a list of [WithPanicStatus] options
    wraps the given handler and takes the status of the last option;
    without options the panic status is 0, which leaves the response of
    a panicking handler untouched. *)
Theorem NewLogMiddleware_options (next : Handler) (codes : list Z) :
  NewLogMiddleware next (WithPanicStatus <$> codes)
  = {| Next := next; panicCode := default 0%Z (last codes) |}.
Proof. unfold NewLogMiddleware. now rewrite options_fold. Qed.

(** X18: the response writer receives from [ServeHTTP] every call the
    handler makes on the wrapper, in the handler's order and unchanged,
    and nothing else, but for one [WriteHeader] with the panic status
    after them when the handler panics and that status is not 0. *)
Theorem ServeHTTP_writer (rg : MapRange) (g : Globals)
  (EnsureCorrelationId : Request -> Request)
  (mw : LogMiddleware) (w : ResponseWriterT) (r : Request) (start now : Z) :
  let run := Next mw (EnsureCorrelationId r) in
  writer (ServeHTTP rg g EnsureCorrelationId mw w r start now)
  = w ++ calls run ++ panic_status_call mw (completion run).
Proof.
  cbv zeta.
  destruct (completion (Next mw (EnsureCorrelationId r))) as [|rec stack] eqn:H.
  - rewrite (ServeHTTP_Returned rg g EnsureCorrelationId mw w r start now H).
    cbn [writer panic_status_call]. now rewrite app_nil_r.
  - rewrite (ServeHTTP_Panicked rg g EnsureCorrelationId mw w r start now rec stack H).
    cbn [writer panic_status_call].
    destruct (panicCode mw =? 0)%Z; cbn [negb]; now rewrite ?app_nil_r, <- ?app_assoc.
Qed.

(** X19: whichever way the handler ends, [ServeHTTP] logs exactly one
    event for the request; it is of type access and carries the
    correlation ids of the request as [EnsureCorrelationId] left it.
    A server serving a list of requests through the middleware serves
    them all. *)
Theorem ServeHTTP_one_event (rg : MapRange) (g : Globals)
  (EnsureCorrelationId : Request -> Request)
  (mw : LogMiddleware) (w : ResponseWriterT) (r : Request) (start now : Z)
  (reqs : list (Request * ResponseWriterT * Z * Z)) :
  (exists ev,
     logged (ServeHTTP rg g EnsureCorrelationId mw w r start now) = [ev]
     /\ ev_fields ev !! "type" = Some (FStr "access")
     /\ carries_correlation_ids g (Header (EnsureCorrelationId r)) (ev_fields ev))
  /\ length (serve rg g EnsureCorrelationId mw reqs) = length reqs
  /\ Forall (fun served => length (logged served) = 1%nat /\ unwinding served = None)
       (serve rg g EnsureCorrelationId mw reqs).
Proof.
  split; [|split].
  - destruct (ServeHTTP_logged rg g EnsureCorrelationId mw w r start now)
      as (s & err & lvl & msg & H).
    eexists. split; [exact H|]. cbn [ev_fields].
    split; [apply access_type | apply access_carries].
  - induction reqs as [|[[[r' w'] start'] now'] reqs IH]; [reflexivity|].
    rewrite serve_cons. cbn [length]. now rewrite IH.
  - induction reqs as [|[[[r' w'] start'] now'] reqs IH]; [constructor|].
    rewrite serve_cons. constructor; [|exact IH].
    split; [|apply ServeHTTP_unwinding].
    destruct (ServeHTTP_logged rg g EnsureCorrelationId mw w' r' start' now')
      as (s & err & lvl & msg & H).
    now rewrite H.
Qed.

(** ** LifecycleStop *)

(** X20: [LifecycleStop] logs one event of type lifecycle with the event
    stop. It has a signal field exactly when a signal is given and a
    build_number field exactly when BUILD_NUMBER is set and not empty.
    With an error the severity is error and the message and the error
    field hold the error text, the signal field staying; without one the
    severity is info and the message names the signal, [<nil>] when
    there is none. *)
Theorem LifecycleStop_event (env : Environ) (appName : string) (signal : option string)
  (err : option string) :
  exists ev,
    LifecycleStop env appName signal err = [ev]
    /\ ev_fields ev !! "type" = Some (FStr "lifecycle")
    /\ ev_fields ev !! "event" = Some (FStr "stop")
    /\ ev_fields ev !! "signal" = FStr <$> signal
    /\ ev_fields ev !! "build_number"
       = (if decide (Getenv env "BUILD_NUMBER" = "") then None
          else Some (FStr (Getenv env "BUILD_NUMBER")))
    /\ (env !! "BUILD_NUMBER" = None -> ev_fields ev !! "build_number" = None)
    /\ ev_fields ev !! "error" = FStr <$> err
    /\ ev_level ev = match err with Some _ => ErrorLevel | None => InfoLevel end
    /\ ev_message ev
       = "stopping application: " +:+ appName +:+ " ("
         +:+ match err with Some e => e | None => fmt_signal signal end +:+ ")".
Proof.
  unfold LifecycleStop, WithError, WithFields, ErrorKey.
  assert (Hunset : env !! "BUILD_NUMBER" = None -> Getenv env "BUILD_NUMBER" = "").
  { unfold Getenv. now intros ->. }
  destruct (String.eqb_spec (Getenv env "BUILD_NUMBER") "") as [Hn|Hn]; cbn [negb];
    case_decide; try congruence;
    destruct err as [e|], signal as [name|];
    (eexists; split; [reflexivity|]);
    cbn [ev_fields ev_level ev_message fmap option_fmap option_map];
    repeat split; try (intros Hu; specialize (Hunset Hu); congruence);
    lookup_fields; reflexivity.
Qed.

(** ** Anonymized values and whole events *)

Section EventsHidden.
Variable rg : MapRange.
Variable g : Globals.

Lemma buildFullPath_same (r1 r2 : Request) :
  Path (URL r1) = Path (URL r2) ->
  dom (Query (URL r1)) = dom (Query (URL r2)) ->
  open_parameters g r1 = open_parameters g r2 ->
  buildFullPath rg g r1 = buildFullPath rg g r2.
Proof.
  intros Hpath Hdom Hopen. unfold buildFullPath.
  rewrite !redact_fold, Hpath.
  now rewrite (redacted_same g (Query (URL r1)) (Query (URL r2)) Hdom Hopen).
Qed.

End EventsHidden.

(** X21: the values of anonymized parameters reach neither the fields
    nor the message of an access, access-error or call event: two
    requests that differ in their raw query only, where both queries are
    empty or both are not, with the same parameter names and the same
    values for the names that are not anonymized, are logged alike. *)
Theorem anonymized_values_not_logged (rg : MapRange) (g : Globals) (r : Request)
  (query1 query2 : string) (resp : option Response) (start now s : Z)
  (err : option string) (msg : string) :
  let r1 := with_RawQuery query1 r in
  let r2 := with_RawQuery query2 r in
  (String.length query1 =? 0)%nat = (String.length query2 =? 0)%nat ->
  dom (Query (URL r1)) = dom (Query (URL r2)) ->
  open_parameters g r1 = open_parameters g r2 ->
  Access rg g r1 start now s = Access rg g r2 start now s
  /\ AccessError rg g r1 start now msg = AccessError rg g r2 start now msg
  /\ Call rg g r1 resp start now err = Call rg g r2 resp start now err.
Proof.
  cbv zeta. intros Hlen Hdom Hopen.
  pose proof (buildFullPath_same rg g (with_RawQuery query1 r) (with_RawQuery query2 r)
                eq_refl Hdom Hopen) as Hpath.
  assert (Hacc : forall s' err',
    access rg g (with_RawQuery query1 r) start now s' err'
    = access rg g (with_RawQuery query2 r) start now s' err').
  { intros s' err'. unfold access. now rewrite Hpath. }
  split; [|split].
  - unfold Access. rewrite Hacc. cbn [with_RawQuery URL RawQuery Method Path].
    now rewrite Hlen.
  - unfold AccessError. now rewrite Hacc.
  - unfold Call, buildFullUrl. now rewrite Hpath.
Qed.

(** Two calls of a search with different anonymized tokens. *)
Lemma anonymized_values_not_logged_witness :
  let g := anonymizing ["token"] in
  Call range_canonical g (with_RawQuery "q=go&token=abc" foo_q_bar) None 0 0 None
  = Call range_canonical g (with_RawQuery "token=xyz&q=go" foo_q_bar) None 0 0 None.
Proof.
  cbv zeta.
  apply (anonymized_values_not_logged range_canonical (anonymizing ["token"]) foo_q_bar
           "q=go&token=abc" "token=xyz&q=go" None 0 0 200 None "");
    vm_compute; reflexivity.
Defined.
